(** * YARD base grammar: the rule combinators of [yard_base_grammar.hpp]

    A YARD parse rule is a type with no fields and one static function
    [Match(ParserState_T& p)] returning [bool].  The parser [p] is passed by
    reference and mutated in place, and [Match] may also leave by a C++
    exception ([Finao] throws, [Store] catches and rethrows).

    The embedding is shallow.  A rule is a function from the parser state at
    entry to an [Outcome]: the returned boolean together with the parser state
    at exit, or the parser state at the moment an exception escapes.  The
    [while] loops of [Star] and [UntilPast] are not bounded by the source, so
    every rule takes a fuel argument and a loop that uses it up yields
    [OutOfFuel].

    The parser is a template parameter of the source; here it is a type
    class with the member functions the rules call.  What the rules rely on
    is stated as laws on that interface, and a text parser over strings with
    a tree of labelled nodes gives the laws a model and the scenarios an
    input.

    Contents: outcomes and the parser interface; the rules; the matching
    contract; the text parser; then the properties: the [||] and [&&]
    chains, fuel, failure transparency, lookahead and sentinels, the node
    stack, choice and sequence, repetition, scanning ahead, and the
    scenarios evaluated on the text parser. *)

From Stdlib Require Import List ZArith Lia Bool Arith String Ascii.
Import ListNotations.

#[local] Set Warnings "-register-all".

(** ** Outcomes of [Match] *)

Inductive Outcome (P : Type) : Type :=
| Ret (b : bool) (p : P)   (* [return b;], the parser left in state [p] *)
| Throw (p : P)            (* an exception escapes; [p] is the parser then *)
| Undefined                (* a parser operation called outside its domain *)
| OutOfFuel.               (* the fuel of the model ran out: no result yet *)

Arguments Ret {P} b p.
Arguments Throw {P} p.
Arguments Undefined {P}.
Arguments OutOfFuel {P}.

(** A rule: fuel, parser state at entry, outcome. *)
Definition Rule (P : Type) : Type := nat -> P -> Outcome P.

(** The parser state an ended call leaves behind. *)
Definition final_state {P : Type} (o : Outcome P) : option P :=
  match o with
  | Ret _ p | Throw p => Some p
  | Undefined | OutOfFuel => None
  end.

(** ** The parser interface

    [ParserState_T] is a template parameter of every [Match]: the rules use
    seven member functions and the member type [Iterator], and nothing else.
    The class lists exactly those. *)

Class ParserState (P : Type) : Type := {
  Iterator : Type;
  StartNode : Z -> P -> P;
  CompleteNode : Z -> P -> P;
  AbandonNode : Z -> P -> P;
  AtEnd : P -> bool;
  GetPos : P -> Iterator;
  SetPos : Iterator -> P -> P;
  GotoNext : P -> P
}.

(** ** The rules *)

Section Rules.

Context {P : Type} {PS : ParserState P}.

(** [a || b] of C++ on two [Match] calls: [b] runs only after [a] returned
    false, on the parser as [a] left it. *)
Definition orelse (A B : Rule P) : Rule P := fun n p =>
  match A n p with
  | Ret false p' => B n p'
  | o => o
  end.

(** [a && b] of C++ on two [Match] calls: [b] runs only after [a] returned
    true, on the parser as [a] left it. *)
Definition andalso (A B : Rule P) : Rule P := fun n p =>
  match A n p with
  | Ret true p' => B n p'
  | o => o
  end.

(** Modelled from the spec: [p.GotoNext()] as the rules call it.  The
    parser is not part of the source file; its interface description says
    that advancing is undefined when the cursor is already at the end, so a
    call there yields [Undefined] and any other call continues with the
    advanced parser. *)
Definition call_GotoNext (p : P) (k : P -> Outcome P) : Outcome P :=
  if AtEnd p then Undefined else k (GotoNext p).

(** [Store<Label_T, Rule_T>], with [Label_T::id] as [id].  The handler
    [catch(...)] abandons the node and rethrows; its diagnostic line on
    [std::cerr] is not part of the parser state and is left out. *)
Definition Store (id : Z) (R : Rule P) : Rule P := fun n p =>
  match R n (StartNode id p) with
  | Ret true p' => Ret true (CompleteNode id p')
  | Ret false p' => Ret false (AbandonNode id p')
  | Throw p' => Throw (AbandonNode id p')
  | Undefined => Undefined
  | OutOfFuel => OutOfFuel
  end.

(** [Finao<Rule_T>]: [throw 0] when the rule fails. *)
Definition Finao (R : Rule P) : Rule P := fun n p =>
  match R n p with
  | Ret true p' => Ret true p'
  | Ret false p' => Throw p'
  | o => o
  end.

Definition True_T : Rule P := fun _ p => Ret true p.

Definition False_T : Rule P := fun _ p => Ret false p.

Definition EndOfInput_T : Rule P := fun _ p => Ret (AtEnd p) p.

(** [At<Rule_T>]: [SetPos(pos)] is reached only when the rule matched. *)
Definition At (R : Rule P) : Rule P := fun n p =>
  let pos := GetPos p in
  match R n p with
  | Ret true p' => Ret true (SetPos pos p')
  | Ret false p' => Ret false p'
  | o => o
  end.

Definition NotAt (R : Rule P) : Rule P := fun n p =>
  let pos := GetPos p in
  match R n p with
  | Ret true p' => Ret false (SetPos pos p')
  | Ret false p' => Ret true p'
  | o => o
  end.

(** [Or<T0, ..., T9>]: one [||] chain, left to right. *)
Definition Or (T0 T1 T2 T3 T4 T5 T6 T7 T8 T9 : Rule P) : Rule P :=
  orelse (orelse (orelse (orelse (orelse (orelse (orelse (orelse (orelse
    T0 T1) T2) T3) T4) T5) T6) T7) T8) T9.

(** [Seq<T0, ..., T9>]: one [&&] chain, and [SetPos(pos)] in the [else]
    branch. *)
Definition Seq (T0 T1 T2 T3 T4 T5 T6 T7 T8 T9 : Rule P) : Rule P := fun n p =>
  let pos := GetPos p in
  match
    andalso (andalso (andalso (andalso (andalso (andalso (andalso (andalso
      (andalso T0 T1) T2) T3) T4) T5) T6) T7) T8) T9 n p
  with
  | Ret true p' => Ret true p'
  | Ret false p' => Ret false (SetPos pos p')
  | o => o
  end.

(** The template defaults: [Or<T0, T1>] pads with [False_T], [Seq<T0, T1>]
    with [True_T]. *)
Definition Or2 (T0 T1 : Rule P) : Rule P :=
  Or T0 T1 False_T False_T False_T False_T False_T False_T False_T False_T.

Definition Seq2 (T0 T1 : Rule P) : Rule P :=
  Seq T0 T1 True_T True_T True_T True_T True_T True_T True_T True_T.

(** [Or<...>] and [Seq<...>] written with the template arguments [rs] (two
    to ten of them in the source) and the defaults for the rest. *)
Definition Or_of (rs : list (Rule P)) : Rule P :=
  Or (nth 0 rs False_T) (nth 1 rs False_T) (nth 2 rs False_T)
     (nth 3 rs False_T) (nth 4 rs False_T) (nth 5 rs False_T)
     (nth 6 rs False_T) (nth 7 rs False_T) (nth 8 rs False_T)
     (nth 9 rs False_T).

Definition Seq_of (rs : list (Rule P)) : Rule P :=
  Seq (nth 0 rs True_T) (nth 1 rs True_T) (nth 2 rs True_T)
      (nth 3 rs True_T) (nth 4 rs True_T) (nth 5 rs True_T)
      (nth 6 rs True_T) (nth 7 rs True_T) (nth 8 rs True_T)
      (nth 9 rs True_T).

(** What [Seq] makes of the outcome of its [&&] chain, [pos] being the
    position saved at entry. *)
Definition Seq_result (pos : Iterator) (o : Outcome P) : Outcome P :=
  match o with
  | Ret true p' => Ret true p'
  | Ret false p' => Ret false (SetPos pos p')
  | o => o
  end.

(** [while (Rule_T::Match(p)) { }] with [k] iterations of fuel left; the
    rule itself runs on fuel [n]. *)
Fixpoint while_Match (R : Rule P) (n k : nat) (p : P) : Outcome P :=
  match k with
  | O => OutOfFuel
  | S k' =>
      match R n p with
      | Ret true p' => while_Match R n k' p'
      | Ret false p' => Ret true p'
      | o => o
      end
  end.

(** [Star<Rule_T>]: [AtEnd] is tested once, before the loop. *)
Definition Star (R : Rule P) : Rule P := fun n p =>
  if AtEnd p then Ret true p else while_Match R n n p.

(** [Plus<Rule_T>]: the result of the call to [Star] is dropped. *)
Definition Plus (R : Rule P) : Rule P := fun n p =>
  match R n p with
  | Ret false p' => Ret false p'
  | Ret true p' =>
      match Star R n p' with
      | Ret _ p'' => Ret true p''
      | o => o
      end
  | o => o
  end.

Definition Opt (R : Rule P) : Rule P := fun n p =>
  if AtEnd p then Ret true p
  else match R n p with
       | Ret _ p' => Ret true p'
       | o => o
       end.

(** The [for] loop of [Repeat] with [i] iterations still to run. *)
Fixpoint Repeat_loop (R : Rule P) (pos : Iterator) (i n : nat) (p : P)
  : Outcome P :=
  match i with
  | O => Ret true p
  | S i' =>
      match R n p with
      | Ret true p' => Repeat_loop R pos i' n p'
      | Ret false p' => Ret false (SetPos pos p')
      | o => o
      end
  end.

(** [Repeat<Rule_T, N>]. *)
Definition Repeat (R : Rule P) (N : nat) : Rule P := fun n p =>
  Repeat_loop R (GetPos p) N n p.

(** The [while (true)] loop of [UntilPast] with [k] iterations of fuel. *)
Fixpoint UntilPast_loop (R : Rule P) (pos : Iterator) (n k : nat) (p : P)
  : Outcome P :=
  match k with
  | O => OutOfFuel
  | S k' =>
      match R n p with
      | Ret true p' => Ret true p'
      | Ret false p' =>
          call_GotoNext p' (fun p'' =>
            if AtEnd p'' then Ret false (SetPos pos p'')
            else UntilPast_loop R pos n k' p'')
      | o => o
      end
  end.

Definition UntilPast (R : Rule P) : Rule P := fun n p =>
  UntilPast_loop R (GetPos p) n n p.

Definition UntilAt (R : Rule P) : Rule P := UntilPast (At R).

Definition StoreFinao (id : Z) (R : Rule P) : Rule P := Store id (Finao R).

Definition FinaoIf (T U : Rule P) : Rule P := Seq2 T (Finao U).

Definition StoreIf (id : Z) (T U : Rule P) : Rule P :=
  Seq2 T (StoreFinao id U).

End Rules.

(** ** The matching contract, as predicates on rules

    The header of the source file states it: if [Match] fails it must restore
    the parser to its original state. *)

Section Contract.

Context {P : Type} {PS : ParserState P}.

(** A failed match leaves the parser exactly as it found it. *)
Definition transparent (R : Rule P) : Prop :=
  forall n p p', R n p = Ret false p' -> p' = p.

(** A failed match leaves the position as it found it. *)
Definition restores_position (R : Rule P) : Prop :=
  forall n p p', R n p = Ret false p' -> GetPos p' = GetPos p.

(** Whatever a returning match did to the parser is undone by setting the
    position back to the one saved before it. *)
Definition restorable (R : Rule P) : Prop :=
  forall n p b p', R n p = Ret b p' -> SetPos (GetPos p) p' = p.

(** More fuel never changes a result already obtained. *)
Definition monotone (R : Rule P) : Prop :=
  forall n m p, n <= m -> R n p <> OutOfFuel -> R m p = R n p.

(** The rule ends on every parser, given enough fuel. *)
Definition halts (R : Rule P) : Prop :=
  forall p, exists n, R n p <> OutOfFuel.

(** Every successful match uses up some of the remaining input. *)
Definition consumes (remaining : P -> nat) (R : Rule P) : Prop :=
  forall n p p', R n p = Ret true p' -> remaining p' < remaining p.

(** [j] successful matches of [R] in a row, each from where the previous
    one stopped. *)
Fixpoint repeat_Match (R : Rule P) (n j : nat) (p : P) : option P :=
  match j with
  | O => Some p
  | S j' =>
      match R n p with
      | Ret true p' => repeat_Match R n j' p'
      | _ => None
      end
  end.

(** The spec's reading of a sequence: the rules one after the other, each
    from where the previous one stopped, up to the first that does not
    return true. *)
Fixpoint in_order (rs : list (Rule P)) (n : nat) (p : P) : Outcome P :=
  match rs with
  | [] => Ret true p
  | R :: rs' =>
      match R n p with
      | Ret true p' => in_order rs' n p'
      | o => o
      end
  end.

(** The spec's reading of a choice: the alternatives one after the other,
    up to the first that does not return false. *)
Fixpoint first_of (rs : list (Rule P)) (n : nat) (p : P) : Outcome P :=
  match rs with
  | [] => Ret false p
  | R :: rs' =>
      match R n p with
      | Ret false p' => first_of rs' n p'
      | o => o
      end
  end.

(** The parser after [k] calls of [GotoNext]. *)
Fixpoint advance (k : nat) (p : P) : P :=
  match k with
  | O => p
  | S k' => advance k' (GotoNext p)
  end.

(** [fails_at n p A]: alternative [A] returns false on [p] and leaves it
    as it was. *)
Definition fails_at (n : nat) (p : P) (A : Rule P) : Prop :=
  A n p = Ret false p.

(** [skips R n p j]: from [p], the rule fails [j] times in a row, each
    time leaving the parser as it was, and each advance that follows stays
    before the end. *)
Definition skips (R : Rule P) (n : nat) (p : P) (j : nat) : Prop :=
  forall i, i < j ->
    R n (advance i p) = Ret false (advance i p) /\
    AtEnd (advance i p) = false /\ AtEnd (advance (S i) p) = false.

(** The rule never returns false. *)
Definition never_fails (R : Rule P) : Prop :=
  forall n p p', R n p <> Ret false p'.

(** The ways a call can end, or not. *)
Inductive Ending : Type := Returned | Thrown | Undefd | Starved.

Definition ending (o : Outcome P) : Ending :=
  match o with
  | Ret _ _ => Returned
  | Throw _ => Thrown
  | Undefined => Undefd
  | OutOfFuel => Starved
  end.

(** No call of the rule ends the way [e]. *)
Definition never (e : Ending) (R : Rule P) : Prop :=
  forall n p, ending (R n p) <> e.

(** No exception ever leaves the rule. *)
Definition no_throw (R : Rule P) : Prop := never Thrown R.


(** The rule never runs out of fuel: it has no unbounded loop. *)
Definition fuel_free (R : Rule P) : Prop :=
  forall n p, R n p <> OutOfFuel.

(** The rule obeys the contract: it is transparent and restorable. *)
Definition obeys (R : Rule P) : Prop := transparent R /\ restorable R.

End Contract.

(** ** The parser's side of the contract *)

(** Modelled from the spec: the parser is a template parameter and no
    parser is in the source file.  These are the laws the rules rely on
    when they save and restore positions and start and abandon nodes, as
    the spec states them: a position is a snapshot that can be read and set
    back, setting a position back overrides what happened to the position
    since, and an abandoned node is discarded as if never started. *)
Class ParserLaws {P : Type} (PS : ParserState P) : Prop := {
  (* restoring the position just read changes nothing *)
  SetPos_GetPos : forall p : P, SetPos (GetPos p) p = p;
  (* the position read after a restore is the restored one *)
  GetPos_SetPos : forall (a : Iterator) (p : P), GetPos (SetPos a p) = a;
  (* a restore overrides an earlier restore *)
  SetPos_SetPos : forall (a b : Iterator) (p : P),
    SetPos a (SetPos b p) = SetPos a p;
  (* a restore overrides an earlier advance *)
  SetPos_GotoNext : forall (a : Iterator) (p : P),
    SetPos a (GotoNext p) = SetPos a p;
  (* a node abandoned right after it was started leaves no trace *)
  AbandonNode_StartNode : forall (id : Z) (p : P),
    AbandonNode id (StartNode id p) = p
}.

(** Modelled from the spec: the stack of open nodes of a parser, which
    the source file never reads.  It is the list of the labels of the nodes
    started and not yet completed or abandoned, the most recent first:
    starting a node pushes its label, completing and abandoning close the
    most recently opened node, and moving the position opens and closes
    nothing. *)
Class NodeStack {P : Type} (PS : ParserState P) : Type := {
  OpenNodes : P -> list Z;
  OpenNodes_StartNode : forall (id : Z) (p : P),
    OpenNodes (StartNode id p) = id :: OpenNodes p;
  OpenNodes_CompleteNode : forall (id : Z) (p : P),
    OpenNodes (CompleteNode id p) = tl (OpenNodes p);
  OpenNodes_AbandonNode : forall (id : Z) (p : P),
    OpenNodes (AbandonNode id p) = tl (OpenNodes p);
  OpenNodes_GotoNext : forall p : P, OpenNodes (GotoNext p) = OpenNodes p;
  (* setting the position back to [p]'s from a parser with the same nodes
     open leaves the same nodes open *)
  OpenNodes_SetPos : forall p q : P,
    OpenNodes q = OpenNodes p -> OpenNodes (SetPos (GetPos p) q) = OpenNodes p
}.

(** Modelled from the spec: the input of a parser is a finite sequence,
    which the source file never measures.  [units_left] counts the units
    from the cursor to the end: zero exactly at the end, one less after
    each advance. *)
Class FiniteInput {P : Type} (PS : ParserState P) : Type := {
  units_left : P -> nat;
  units_left_AtEnd : forall p : P, AtEnd p = true <-> units_left p = 0;
  units_left_GotoNext : forall p : P,
    AtEnd p = false -> S (units_left (GotoNext p)) = units_left p
}.

(** A rule is balanced when every call that ends, by a return or by an
    exception, leaves open exactly the nodes that were open at entry. *)
Definition balanced {P : Type} {PS : ParserState P} {NS : NodeStack PS}
  (R : Rule P) : Prop :=
  forall n p q, final_state (R n p) = Some q -> OpenNodes q = OpenNodes p.

(** A rule leaves no trace when a call that returns false leaves the
    parser as it was at entry: the same state, so in particular the same
    position and the same open nodes. *)
Definition leaves_no_trace {P : Type} {PS : ParserState P} {NS : NodeStack PS}
  (R : Rule P) : Prop :=
  forall n p p',
    R n p = Ret false p' ->
    p' = p /\ GetPos p' = GetPos p /\ OpenNodes p' = OpenNodes p.

(** ** A text parser *)

(** Modelled from the spec: the parser (cursor) that the rules run on is not
    in the source file.  The spec describes it as a position over an input
    sequence together with a stack of open nodes: opening a node pushes an
    open node that refers to the current position; completing closes the most
    recently opened node, recording its span and the children started in
    between; abandoning discards the most recently opened node with all its
    descendants.  A position is an immutable snapshot, and restoring a saved
    position returns the parser to exactly the state it had when the position
    was saved, node-tree changes included: a [Position] records the input it
    points into, the offset, and the nodes as they were. *)
Module TextParser.

(** Modelled from the spec: a completed node is a labelled span of the
    input with the nodes completed inside it. *)
Inductive Node : Type :=
| mkNode (label : Z) (first last : nat) (children : list Node).

(** Modelled from the spec: an open node knows its label, where it
    started, and the children completed so far. *)
Record OpenNode : Type := mkOpen {
  open_label : Z;
  open_first : nat;
  open_children : list Node
}.

(** Modelled from the spec: the parser state. *)
Record Cursor : Type := mkCursor {
  input : string;
  offset : nat;
  tree : list Node;          (* completed nodes with no open parent *)
  open : list OpenNode       (* open nodes, the most recent first *)
}.

(** Modelled from the spec: a saved position, a snapshot of the parser. *)
Record Position : Type := mkPosition {
  pos_input : string;
  pos_offset : nat;
  pos_tree : list Node;
  pos_open : list OpenNode
}.

Definition start (s : string) : Cursor := mkCursor s 0 [] [].

Definition at_offset (s : string) (k : nat) : Cursor := mkCursor s k [] [].

Definition close (o : OpenNode) (last : nat) : Node :=
  mkNode (open_label o) (open_first o) last (open_children o).

Definition add_child (o : OpenNode) (c : Node) : OpenNode :=
  mkOpen (open_label o) (open_first o) (open_children o ++ [c]).

(** Modelled from the spec: starting a node pushes an open node that
    refers to the current position. *)
Definition start_node (id : Z) (c : Cursor) : Cursor :=
  mkCursor (input c) (offset c) (tree c) (mkOpen id (offset c) [] :: open c).

(** Modelled from the spec: completing closes the most recently opened
    node, records its span and children, and hands it to its parent. *)
Definition complete_node (id : Z) (c : Cursor) : Cursor :=
  match open c with
  | [] => c
  | o :: [] =>
      mkCursor (input c) (offset c) (tree c ++ [close o (offset c)]) []
  | o :: parent :: rest =>
      mkCursor (input c) (offset c) (tree c)
        (add_child parent (close o (offset c)) :: rest)
  end.

(** Modelled from the spec: abandoning discards the most recently opened
    node and all its descendants. *)
Definition abandon_node (id : Z) (c : Cursor) : Cursor :=
  mkCursor (input c) (offset c) (tree c) (tl (open c)).

(** Modelled from the spec: at the end when no input unit remains. *)
Definition at_end (c : Cursor) : bool := String.length (input c) <=? offset c.

(** Modelled from the spec: reading the position takes the snapshot. *)
Definition get_pos (c : Cursor) : Position :=
  mkPosition (input c) (offset c) (tree c) (open c).

(** Modelled from the spec: setting a position puts the snapshot back. *)
Definition set_pos (a : Position) (c : Cursor) : Cursor :=
  mkCursor (pos_input a) (pos_offset a) (pos_tree a) (pos_open a).

(** Modelled from the spec: advancing moves to the next input unit. *)
Definition goto_next (c : Cursor) : Cursor :=
  mkCursor (input c) (S (offset c)) (tree c) (open c).

(** Modelled from the spec: the text parser as a [ParserState]. *)
#[global] Instance parser : ParserState Cursor := {
  Iterator := Position;
  StartNode := start_node;
  CompleteNode := complete_node;
  AbandonNode := abandon_node;
  AtEnd := at_end;
  GetPos := get_pos;
  SetPos := set_pos;
  GotoNext := goto_next
}.

(** The labels of the open nodes, the most recent first. *)
Definition open_labels (c : Cursor) : list Z := map open_label (open c).

(** Input units left from the cursor to the end. *)
Definition remaining (c : Cursor) : nat := String.length (input c) - offset c.

Definition is_digit (a : ascii) : bool :=
  (48 <=? nat_of_ascii a) && (nat_of_ascii a <=? 57).

(** Modelled from the spec: [Digit], used by the spec's scenarios, is a
    rule of the text grammar, which is not in the source file.  It matches
    one decimal digit and consumes it. *)
Definition Digit : Rule Cursor := fun _ c =>
  match String.get (offset c) (input c) with
  | Some a => if is_digit a then Ret true (goto_next c) else Ret false c
  | None => Ret false c
  end.

(** Modelled from the spec: [Literal(s)], used by the spec's scenarios, is
    a rule of the text grammar, which is not in the source file.  It
    matches the text [s] at the cursor and consumes it. *)
Definition Literal (s : string) : Rule Cursor := fun _ c =>
  if String.eqb (String.substring (offset c) (String.length s) (input c)) s
  then Ret true
         (mkCursor (input c) (offset c + String.length s) (tree c) (open c))
  else Ret false c.

End TextParser.

(** * Properties of the rules *)

(** Case analysis on the outcome of one [Match] call. *)
Ltac case_Match R n p :=
  let E := fresh "E" in
  destruct (R n p) as [[|] ?q | ?q | | ] eqn:E.

(** The next [Match] call of a chain: the one whose parser is known. *)
Ltac step_Match :=
  match goal with
  | |- context [match ?R ?n ?x with _ => _ end] =>
      is_var R; is_var x;
      destruct (R n x) as [[|] ?q | ?q | | ]; try reflexivity
  end.

(** ** The [||] and [&&] chains *)

Section Chains.

Context {P : Type} {PS : ParserState P}.

Implicit Types (A B C R : Rule P) (rs : list (Rule P)) (n : nat) (p q : P).

Lemma orelse_assoc A B C n p :
  orelse (orelse A B) C n p = orelse A (orelse B C) n p.
Proof. unfold orelse. case_Match A n p; reflexivity. Qed.

Lemma andalso_assoc A B C n p :
  andalso (andalso A B) C n p = andalso A (andalso B C) n p.
Proof. unfold andalso. case_Match A n p; reflexivity. Qed.

Lemma orelse_cons A rs n p :
  orelse A (first_of rs) n p = first_of (A :: rs) n p.
Proof. reflexivity. Qed.

Lemma andalso_cons A rs n p :
  andalso A (in_order rs) n p = in_order (A :: rs) n p.
Proof. reflexivity. Qed.

Lemma first_of_app rs1 rs2 n p :
  first_of (rs1 ++ rs2) n p =
  match first_of rs1 n p with
  | Ret false q => first_of rs2 n q
  | o => o
  end.
Proof.
  revert p. induction rs1 as [|R rs1 IH]; intros p; simpl; [reflexivity|].
  case_Match R n p; auto.
Qed.

Lemma in_order_app rs1 rs2 n p :
  in_order (rs1 ++ rs2) n p =
  match in_order rs1 n p with
  | Ret true q => in_order rs2 n q
  | o => o
  end.
Proof.
  revert p. induction rs1 as [|R rs1 IH]; intros p; simpl; [reflexivity|].
  case_Match R n p; auto.
Qed.

Lemma first_of_False_T k n p : first_of (repeat False_T k) n p = Ret false p.
Proof. induction k; simpl; auto. Qed.

Lemma in_order_True_T k n p : in_order (repeat True_T k) n p = Ret true p.
Proof. induction k; simpl; auto. Qed.

(** The ten-argument chain of the source is the list reading. *)
Lemma Or_first_of (T0 T1 T2 T3 T4 T5 T6 T7 T8 T9 : Rule P) n p :
  Or T0 T1 T2 T3 T4 T5 T6 T7 T8 T9 n p =
  first_of [T0; T1; T2; T3; T4; T5; T6; T7; T8; T9] n p.
Proof.
  unfold Or, orelse. simpl. repeat step_Match; reflexivity.
Qed.

Lemma Seq_chain_in_order (T0 T1 T2 T3 T4 T5 T6 T7 T8 T9 : Rule P) n p :
  andalso (andalso (andalso (andalso (andalso (andalso (andalso (andalso
    (andalso T0 T1) T2) T3) T4) T5) T6) T7) T8) T9 n p =
  in_order [T0; T1; T2; T3; T4; T5; T6; T7; T8; T9] n p.
Proof.
  unfold andalso. simpl. repeat step_Match; reflexivity.
Qed.

Lemma padded (d : Rule P) rs :
  List.length rs <= 10 ->
  [nth 0 rs d; nth 1 rs d; nth 2 rs d; nth 3 rs d; nth 4 rs d;
   nth 5 rs d; nth 6 rs d; nth 7 rs d; nth 8 rs d; nth 9 rs d] =
  rs ++ repeat d (10 - List.length rs).
Proof.
  intros H.
  do 10 (destruct rs as [|? rs]; [reflexivity|]).
  destruct rs; [reflexivity | simpl in H; lia].
Qed.

(** With at most ten arguments the padding with [False_T] is invisible. *)
Lemma Or_of_first_of rs n p :
  List.length rs <= 10 -> Or_of rs n p = first_of rs n p.
Proof.
  intros H. unfold Or_of. rewrite Or_first_of, (padded _ _ H), first_of_app.
  destruct (first_of rs n p) as [[|] q| q| |]; try reflexivity.
  apply first_of_False_T.
Qed.

(** With at most ten arguments the padding with [True_T] is invisible. *)
Lemma Seq_of_in_order rs n p :
  List.length rs <= 10 ->
  Seq_of rs n p = Seq_result (GetPos p) (in_order rs n p).
Proof.
  intros H. unfold Seq_of, Seq. rewrite Seq_chain_in_order, (padded _ _ H).
  rewrite in_order_app.
  destruct (in_order rs n p) as [[|] q| q| |]; try reflexivity.
  rewrite in_order_True_T. reflexivity.
Qed.

End Chains.

(** ** Fuel

    The fuel belongs to the model, not to the source: a result obtained with
    some fuel is the result with any larger fuel.  Every rule of the file
    keeps that property of its sub-rules. *)

Section Fuel.

Context {P : Type} {PS : ParserState P}.

Implicit Types (R A B : Rule P) (rs : list (Rule P)) (n m k : nat) (p q : P).

Lemma monotone_step R n m p :
  monotone R -> n <= m -> R n p = OutOfFuel \/ R m p = R n p.
Proof.
  intros HR Hle. destruct (R n p) as [b q| q| |] eqn:E; auto;
    right; rewrite <- E; apply HR; auto; rewrite E; discriminate.
Qed.

(** One step of a proof of monotonicity: the sub-rule's call either ran out
    of fuel, and so did the rule, or has the same outcome with more fuel. *)
Ltac mono_step HR n m p Hle Hne :=
  let E := fresh "E" in
  destruct (monotone_step _ n m p HR Hle) as [E|E];
  [ rewrite E in Hne; simpl in Hne; congruence | rewrite E ].

Lemma monotone_fixed (f : P -> Outcome P) : monotone (fun _ => f).
Proof. intros n m p _ _. reflexivity. Qed.

Lemma monotone_True_T : monotone (True_T (P := P)).
Proof. apply monotone_fixed. Qed.

Lemma monotone_False_T : monotone (False_T (P := P)).
Proof. apply monotone_fixed. Qed.

Lemma monotone_EndOfInput_T : monotone (EndOfInput_T (P := P)).
Proof. apply monotone_fixed. Qed.

Lemma monotone_Store id R : monotone R -> monotone (Store id R).
Proof.
  intros HR n m p Hle Hne. unfold Store in *.
  mono_step HR n m (StartNode id p) Hle Hne. reflexivity.
Qed.

Lemma monotone_Finao R : monotone R -> monotone (Finao R).
Proof.
  intros HR n m p Hle Hne. unfold Finao in *.
  mono_step HR n m p Hle Hne. reflexivity.
Qed.

Lemma monotone_At R : monotone R -> monotone (At R).
Proof.
  intros HR n m p Hle Hne. unfold At in *.
  mono_step HR n m p Hle Hne. reflexivity.
Qed.

Lemma monotone_NotAt R : monotone R -> monotone (NotAt R).
Proof.
  intros HR n m p Hle Hne. unfold NotAt in *.
  mono_step HR n m p Hle Hne. reflexivity.
Qed.

Lemma monotone_first_of rs : Forall monotone rs -> monotone (first_of rs).
Proof.
  induction 1 as [|R rs HR _ IH]; intros n m p Hle Hne; simpl in *.
  - reflexivity.
  - mono_step HR n m p Hle Hne.
    destruct (R n p) as [[|] q| q| |]; auto.
Qed.

Lemma monotone_in_order rs : Forall monotone rs -> monotone (in_order rs).
Proof.
  induction 1 as [|R rs HR _ IH]; intros n m p Hle Hne; simpl in *.
  - reflexivity.
  - mono_step HR n m p Hle Hne.
    destruct (R n p) as [[|] q| q| |]; auto.
Qed.

Lemma monotone_Or (T0 T1 T2 T3 T4 T5 T6 T7 T8 T9 : Rule P) :
  Forall monotone [T0; T1; T2; T3; T4; T5; T6; T7; T8; T9] ->
  monotone (Or T0 T1 T2 T3 T4 T5 T6 T7 T8 T9).
Proof.
  intros H n m p Hle Hne. rewrite !Or_first_of in *.
  now apply monotone_first_of.
Qed.

Lemma monotone_Seq (T0 T1 T2 T3 T4 T5 T6 T7 T8 T9 : Rule P) :
  Forall monotone [T0; T1; T2; T3; T4; T5; T6; T7; T8; T9] ->
  monotone (Seq T0 T1 T2 T3 T4 T5 T6 T7 T8 T9).
Proof.
  intros H n m p Hle Hne. unfold Seq in *.
  rewrite !Seq_chain_in_order in *.
  mono_step (monotone_in_order _ H) n m p Hle Hne. reflexivity.
Qed.

Lemma while_Match_monotone R n m k k' p :
  monotone R -> n <= m -> k <= k' ->
  while_Match R n k p <> OutOfFuel ->
  while_Match R m k' p = while_Match R n k p.
Proof.
  intros HR Hle. revert k' p.
  induction k as [|k IH]; intros k' p Hk Hne; simpl in *; [congruence|].
  destruct k' as [|k']; [lia|]. simpl.
  mono_step HR n m p Hle Hne.
  destruct (R n p) as [[|] q| q| |]; auto. apply IH; [lia | assumption].
Qed.

Lemma monotone_Star R : monotone R -> monotone (Star R).
Proof.
  intros HR n m p Hle Hne. unfold Star in *.
  destruct (AtEnd p); [reflexivity|].
  now apply while_Match_monotone.
Qed.

Lemma monotone_Plus R : monotone R -> monotone (Plus R).
Proof.
  intros HR n m p Hle Hne. unfold Plus in *.
  mono_step HR n m p Hle Hne.
  destruct (R n p) as [[|] q| q| |]; auto.
  mono_step (monotone_Star R HR) n m q Hle Hne. reflexivity.
Qed.

Lemma monotone_Opt R : monotone R -> monotone (Opt R).
Proof.
  intros HR n m p Hle Hne. unfold Opt in *.
  destruct (AtEnd p); [reflexivity|].
  mono_step HR n m p Hle Hne. reflexivity.
Qed.

Lemma Repeat_loop_monotone R pos i n m p :
  monotone R -> n <= m ->
  Repeat_loop R pos i n p <> OutOfFuel ->
  Repeat_loop R pos i m p = Repeat_loop R pos i n p.
Proof.
  intros HR Hle. revert p.
  induction i as [|i IH]; intros p Hne; simpl in *; [reflexivity|].
  mono_step HR n m p Hle Hne.
  destruct (R n p) as [[|] q| q| |]; auto.
Qed.

Lemma monotone_Repeat R N : monotone R -> monotone (Repeat R N).
Proof.
  intros HR n m p Hle Hne. unfold Repeat in *.
  now apply Repeat_loop_monotone.
Qed.

Lemma UntilPast_loop_monotone R pos n m k k' p :
  monotone R -> n <= m -> k <= k' ->
  UntilPast_loop R pos n k p <> OutOfFuel ->
  UntilPast_loop R pos m k' p = UntilPast_loop R pos n k p.
Proof.
  intros HR Hle. revert k' p.
  induction k as [|k IH]; intros k' p Hk Hne; simpl in *; [congruence|].
  destruct k' as [|k']; [lia|]. simpl.
  mono_step HR n m p Hle Hne.
  destruct (R n p) as [[|] q| q| |]; auto.
  unfold call_GotoNext in *. destruct (AtEnd q); [reflexivity|].
  destruct (AtEnd (GotoNext q)); [reflexivity|].
  apply IH; [lia | assumption].
Qed.

Lemma monotone_UntilPast R : monotone R -> monotone (UntilPast R).
Proof.
  intros HR n m p Hle Hne. unfold UntilPast in *.
  now apply UntilPast_loop_monotone.
Qed.

Lemma monotone_UntilAt R : monotone R -> monotone (UntilAt R).
Proof. intros HR. apply monotone_UntilPast, monotone_At, HR. Qed.

End Fuel.

(** ** Failure transparency, rule by rule *)

Section Transparency.

Context {P : Type} {PS : ParserState P} {PL : ParserLaws PS}.

Implicit Types (R : Rule P) (rs : list (Rule P)) (n : nat) (p q : P).

Lemma transparent_restores_position R :
  transparent R -> restores_position R.
Proof. intros H n p p' E. apply H in E. now subst. Qed.

Lemma transparent_Store id R : transparent R -> transparent (Store id R).
Proof.
  intros HR n p p' H. unfold Store in H.
  case_Match R n (StartNode id p); inversion H; subst.
  apply HR in E. subst. apply AbandonNode_StartNode.
Qed.

Lemma transparent_Finao R : transparent (Finao R).
Proof.
  intros n p p' H. unfold Finao in H. case_Match R n p; discriminate.
Qed.

Lemma transparent_True_T : transparent (True_T (P := P)).
Proof. intros n p p' H. discriminate. Qed.

Lemma transparent_False_T : transparent (False_T (P := P)).
Proof. intros n p p' H. now inversion H. Qed.

Lemma transparent_EndOfInput_T : transparent (EndOfInput_T (P := P)).
Proof. intros n p p' H. now inversion H. Qed.

Lemma transparent_At R : transparent R -> transparent (At R).
Proof.
  intros HR n p p' H. unfold At in H.
  case_Match R n p; inversion H; subst. eauto.
Qed.

Lemma transparent_NotAt R : restorable R -> transparent (NotAt R).
Proof.
  intros HR n p p' H. unfold NotAt in H.
  case_Match R n p; inversion H; subst. eauto.
Qed.

Lemma transparent_first_of rs :
  Forall transparent rs -> transparent (first_of rs).
Proof.
  induction 1 as [|R rs HR _ IH]; intros n p p' H; simpl in H.
  - now inversion H.
  - case_Match R n p; try discriminate.
    apply HR in E. subst. eauto.
Qed.

Lemma transparent_Or (T0 T1 T2 T3 T4 T5 T6 T7 T8 T9 : Rule P) :
  Forall transparent [T0; T1; T2; T3; T4; T5; T6; T7; T8; T9] ->
  transparent (Or T0 T1 T2 T3 T4 T5 T6 T7 T8 T9).
Proof.
  intros H n p p' E. rewrite Or_first_of in E.
  eapply transparent_first_of; eauto.
Qed.

(** A run of restorable rules is undone as a whole by one [SetPos]. *)
Lemma restorable_in_order rs :
  Forall restorable rs -> restorable (in_order rs).
Proof.
  induction 1 as [|R rs HR _ IH]; intros n p b p' H; simpl in H.
  - inversion H; subst. apply SetPos_GetPos.
  - case_Match R n p; try discriminate.
    + rewrite <- (IH _ _ _ _ H) in E. apply HR in E.
      now rewrite SetPos_SetPos in E.
    + inversion H; subst. eauto.
Qed.

Lemma transparent_Seq (T0 T1 T2 T3 T4 T5 T6 T7 T8 T9 : Rule P) :
  Forall restorable [T0; T1; T2; T3; T4; T5; T6; T7; T8; T9] ->
  transparent (Seq T0 T1 T2 T3 T4 T5 T6 T7 T8 T9).
Proof.
  intros H n p p' E. unfold Seq in E. rewrite Seq_chain_in_order in E.
  destruct (in_order _ n p) as [[|] q| q| |] eqn:E'; inversion E; subst.
  eapply restorable_in_order; eauto.
Qed.

Lemma while_Match_true R n k p b p' :
  while_Match R n k p = Ret b p' -> b = true.
Proof.
  revert p. induction k as [|k IH]; intros p H; simpl in H; [discriminate|].
  case_Match R n p; try discriminate; eauto. now inversion H.
Qed.

Lemma Star_true R n p b p' : Star R n p = Ret b p' -> b = true.
Proof.
  unfold Star. destruct (AtEnd p); intros H.
  - now inversion H.
  - eapply while_Match_true; eauto.
Qed.

Lemma transparent_Star R : transparent (Star R).
Proof. intros n p p' H. apply Star_true in H. discriminate. Qed.

Lemma transparent_Plus R : transparent R -> transparent (Plus R).
Proof.
  intros HR n p p' H. unfold Plus in H.
  case_Match R n p; try discriminate.
  - destruct (Star R n q) as [b q'| | |]; discriminate.
  - inversion H; subst. eauto.
Qed.

Lemma transparent_Opt R : transparent (Opt R).
Proof.
  intros n p p' H. unfold Opt in H. destruct (AtEnd p); [discriminate|].
  case_Match R n p; discriminate.
Qed.

Lemma Repeat_loop_false R (p0 : P) i n p p' :
  restorable R ->
  SetPos (GetPos p0) p = p0 ->
  Repeat_loop R (GetPos p0) i n p = Ret false p' -> p' = p0.
Proof.
  intros HR. revert p.
  induction i as [|i IH]; intros p Hp H; simpl in H; [discriminate|].
  case_Match R n p; try discriminate.
  - apply (IH q); [|assumption].
    apply HR in E. rewrite <- E in Hp. now rewrite SetPos_SetPos in Hp.
  - inversion H; subst.
    apply HR in E. rewrite <- E in Hp. now rewrite SetPos_SetPos in Hp.
Qed.

Lemma transparent_Repeat R N : restorable R -> transparent (Repeat R N).
Proof.
  intros HR n p p' H. unfold Repeat in H.
  eapply Repeat_loop_false; eauto. apply SetPos_GetPos.
Qed.

Lemma UntilPast_loop_false R (p0 : P) n k p p' :
  restorable R ->
  SetPos (GetPos p0) p = p0 ->
  UntilPast_loop R (GetPos p0) n k p = Ret false p' -> p' = p0.
Proof.
  intros HR. revert p.
  induction k as [|k IH]; intros p Hp H; simpl in H; [discriminate|].
  case_Match R n p; try discriminate.
  unfold call_GotoNext in H. destruct (AtEnd q); [discriminate|].
  assert (Hq : SetPos (GetPos p0) (GotoNext q) = p0).
  { rewrite SetPos_GotoNext. apply HR in E. rewrite <- E in Hp.
    now rewrite SetPos_SetPos in Hp. }
  destruct (AtEnd (GotoNext q)).
  - inversion H; subst. exact Hq.
  - eapply IH; eauto.
Qed.

Lemma transparent_UntilPast R : restorable R -> transparent (UntilPast R).
Proof.
  intros HR n p p' H. unfold UntilPast in H.
  eapply UntilPast_loop_false; eauto. apply SetPos_GetPos.
Qed.

Lemma restorable_At R : restorable R -> restorable (At R).
Proof.
  intros HR n p b p' H. unfold At in H.
  case_Match R n p; inversion H; subst.
  - rewrite SetPos_SetPos. eauto.
  - eauto.
Qed.

Lemma transparent_UntilAt R : restorable R -> transparent (UntilAt R).
Proof. intros HR. apply transparent_UntilPast, restorable_At, HR. Qed.

End Transparency.

(** ** Lookahead, mandatory match and the sentinels *)

Section Lookahead.

Context {P : Type} {PS : ParserState P} {PL : ParserLaws PS}.

Implicit Types (R : Rule P) (n : nat) (p q : P).

Lemma At_position R n p b p' :
  restores_position R -> At R n p = Ret b p' -> GetPos p' = GetPos p.
Proof.
  intros HR H. unfold At in H. case_Match R n p; inversion H; subst.
  - apply GetPos_SetPos.
  - eauto.
Qed.

Lemma NotAt_position R n p b p' :
  restores_position R -> NotAt R n p = Ret b p' -> GetPos p' = GetPos p.
Proof.
  intros HR H. unfold NotAt in H. case_Match R n p; inversion H; subst.
  - apply GetPos_SetPos.
  - eauto.
Qed.

Lemma At_true_iff R n p :
  (exists p', At R n p = Ret true p') <-> (exists p', R n p = Ret true p').
Proof.
  unfold At. case_Match R n p; split; intros [p' H];
    try discriminate; eauto.
Qed.

Lemma At_false_iff R n p :
  (exists p', At R n p = Ret false p') <-> (exists p', R n p = Ret false p').
Proof.
  unfold At. case_Match R n p; split; intros [p' H];
    try discriminate; eauto.
Qed.

Lemma NotAt_true_iff R n p :
  (exists p', NotAt R n p = Ret true p') <->
  (exists p', R n p = Ret false p').
Proof.
  unfold NotAt. case_Match R n p; split; intros [p' H];
    try discriminate; eauto.
Qed.

Lemma NotAt_false_iff R n p :
  (exists p', NotAt R n p = Ret false p') <->
  (exists p', R n p = Ret true p').
Proof.
  unfold NotAt. case_Match R n p; split; intros [p' H];
    try discriminate; eauto.
Qed.

(** C4 (lookahead purity).  For a rule [R] that leaves the position where it
    was when it fails, neither [At<R>] nor [NotAt<R>] ever returns with the
    position changed, whatever the returned value; [At<R>] returns true
    exactly when [R] does and false exactly when [R] does, and [NotAt<R>]
    returns true exactly when [R] returns false and false exactly when [R]
    returns true. *)
Theorem lookahead_purity R :
  restores_position R ->
  forall n p,
    (forall b p', At R n p = Ret b p' -> GetPos p' = GetPos p) /\
    (forall b p', NotAt R n p = Ret b p' -> GetPos p' = GetPos p) /\
    ((exists p', At R n p = Ret true p') <->
     (exists p', R n p = Ret true p')) /\
    ((exists p', At R n p = Ret false p') <->
     (exists p', R n p = Ret false p')) /\
    ((exists p', NotAt R n p = Ret true p') <->
     (exists p', R n p = Ret false p')) /\
    ((exists p', NotAt R n p = Ret false p') <->
     (exists p', R n p = Ret true p')).
Proof.
  intros HR n p. repeat split.
  - intros b p'. now apply At_position.
  - intros b p'. now apply NotAt_position.
  - apply At_true_iff.
  - apply At_true_iff.
  - apply At_false_iff.
  - apply At_false_iff.
  - apply NotAt_true_iff.
  - apply NotAt_true_iff.
  - apply NotAt_false_iff.
  - apply NotAt_false_iff.
Qed.

Lemma Finao_true R n p p' : R n p = Ret true p' -> Finao R n p = Ret true p'.
Proof. intros H. unfold Finao. now rewrite H. Qed.

Lemma Finao_false R n p p' : R n p = Ret false p' -> Finao R n p = Throw p'.
Proof. intros H. unfold Finao. now rewrite H. Qed.

Lemma Finao_never_false R n p p' : Finao R n p <> Ret false p'.
Proof. unfold Finao. case_Match R n p; discriminate. Qed.

Lemma Seq2_in_order (T U : Rule P) n p :
  Seq2 T U n p = Seq_result (GetPos p) (in_order [T; U] n p).
Proof.
  change (Seq2 T U) with (Seq_of [T; U]).
  apply Seq_of_in_order. simpl. lia.
Qed.

Lemma Or2_first_of (T U : Rule P) n p :
  Or2 T U n p = first_of [T; U] n p.
Proof.
  change (Or2 T U) with (Or_of [T; U]).
  apply Or_of_first_of. simpl. lia.
Qed.

Lemma FinaoIf_escalates (T U : Rule P) n p p1 p2 :
  T n p = Ret true p1 -> U n p1 = Ret false p2 ->
  FinaoIf T U n p = Throw p2.
Proof.
  intros HT HU. unfold FinaoIf. rewrite Seq2_in_order. simpl.
  rewrite HT. rewrite (Finao_false U n p1 p2 HU). reflexivity.
Qed.

Lemma Or2_False_T R n p : Or2 R False_T n p = R n p.
Proof.
  rewrite Or2_first_of. simpl. case_Match R n p; reflexivity.
Qed.

Lemma Seq2_True_T R n p :
  restores_position R -> Seq2 R True_T n p = R n p.
Proof.
  intros HR. rewrite Seq2_in_order. simpl.
  case_Match R n p; simpl; try reflexivity.
  apply HR in E. rewrite <- E. now rewrite SetPos_GetPos.
Qed.

(** C9 (sentinel neutrality).  [True_T] returns true and [False_T] returns
    false, each leaving the parser as it was; [Or<R, False_T>] has the
    outcome of [R] on every parser, and so has [Seq<R, True_T>] for every
    rule [R] that leaves the position where it was when it fails. *)
Theorem sentinel_neutrality :
  (forall n p, True_T n p = Ret true p) /\
  (forall n p, False_T n p = Ret false p) /\
  (forall R n p, Or2 R False_T n p = R n p) /\
  (forall R, restores_position R -> forall n p, Seq2 R True_T n p = R n p).
Proof.
  repeat split.
  - apply Or2_False_T.
  - intros R HR n p. now apply Seq2_True_T.
Qed.

End Lookahead.

(** ** The node stack: [Store] and balanced rules *)

Section Nodes.

Context {P : Type} {PS : ParserState P} {NS : NodeStack PS}.

Implicit Types (R A B : Rule P) (rs : list (Rule P)) (n : nat) (p q : P).

Lemma balanced_Ret R n p b q :
  balanced R -> R n p = Ret b q -> OpenNodes q = OpenNodes p.
Proof. intros HR E. apply (HR n). now rewrite E. Qed.

Lemma balanced_Throw R n p q :
  balanced R -> R n p = Throw q -> OpenNodes q = OpenNodes p.
Proof. intros HR E. apply (HR n). now rewrite E. Qed.

Lemma Store_closes id R n p q :
  balanced R -> final_state (R n (StartNode id p)) = Some q ->
  OpenNodes q = id :: OpenNodes p.
Proof. intros HR E. apply HR in E. now rewrite OpenNodes_StartNode in E. Qed.

Lemma balanced_Store id R : balanced R -> balanced (Store id R).
Proof.
  intros HR n p q H. unfold Store in H.
  destruct (R n (StartNode id p)) as [[|] q'| q'| |] eqn:E;
    simpl in H; inversion H; subst;
    rewrite ?OpenNodes_CompleteNode, ?OpenNodes_AbandonNode;
    erewrite Store_closes by (try eassumption; rewrite E; reflexivity);
    reflexivity.
Qed.

Lemma balanced_Finao R : balanced R -> balanced (Finao R).
Proof.
  intros HR n p q H. unfold Finao in H.
  case_Match R n p; simpl in H; inversion H; subst;
    eauto using balanced_Ret, balanced_Throw.
Qed.

Lemma balanced_True_T : balanced (True_T (P := P)).
Proof. intros n p q H. now inversion H. Qed.

Lemma balanced_False_T : balanced (False_T (P := P)).
Proof. intros n p q H. now inversion H. Qed.

Lemma balanced_EndOfInput_T : balanced (EndOfInput_T (P := P)).
Proof. intros n p q H. now inversion H. Qed.

Lemma balanced_At R : balanced R -> balanced (At R).
Proof.
  intros HR n p q H. unfold At in H.
  case_Match R n p; simpl in H; inversion H; subst;
    eauto using balanced_Ret, balanced_Throw, OpenNodes_SetPos.
Qed.

Lemma balanced_NotAt R : balanced R -> balanced (NotAt R).
Proof.
  intros HR n p q H. unfold NotAt in H.
  case_Match R n p; simpl in H; inversion H; subst;
    eauto using balanced_Ret, balanced_Throw, OpenNodes_SetPos.
Qed.

Lemma balanced_first_of rs : Forall balanced rs -> balanced (first_of rs).
Proof.
  induction 1 as [|R rs HR _ IH]; intros n p q H; simpl in H.
  - now inversion H.
  - case_Match R n p; simpl in H; inversion H; subst;
      eauto using balanced_Ret, balanced_Throw.
    rewrite (IH _ _ _ H). eauto using balanced_Ret.
Qed.

Lemma balanced_in_order rs : Forall balanced rs -> balanced (in_order rs).
Proof.
  induction 1 as [|R rs HR _ IH]; intros n p q H; simpl in H.
  - now inversion H.
  - case_Match R n p; simpl in H; inversion H; subst;
      eauto using balanced_Ret, balanced_Throw.
    rewrite (IH _ _ _ H). eauto using balanced_Ret.
Qed.

Lemma balanced_Or (T0 T1 T2 T3 T4 T5 T6 T7 T8 T9 : Rule P) :
  Forall balanced [T0; T1; T2; T3; T4; T5; T6; T7; T8; T9] ->
  balanced (Or T0 T1 T2 T3 T4 T5 T6 T7 T8 T9).
Proof.
  intros H n p q E. rewrite Or_first_of in E.
  eapply balanced_first_of; eauto.
Qed.

Lemma balanced_Seq (T0 T1 T2 T3 T4 T5 T6 T7 T8 T9 : Rule P) :
  Forall balanced [T0; T1; T2; T3; T4; T5; T6; T7; T8; T9] ->
  balanced (Seq T0 T1 T2 T3 T4 T5 T6 T7 T8 T9).
Proof.
  intros H n p q E. unfold Seq in E. rewrite Seq_chain_in_order in E.
  pose proof (balanced_in_order _ H) as HB.
  destruct (in_order _ n p) as [[|] q'| q'| |] eqn:E';
    simpl in E; inversion E; subst;
    eauto using balanced_Ret, balanced_Throw, OpenNodes_SetPos.
Qed.

Lemma balanced_Seq2 (T U : Rule P) :
  balanced T -> balanced U -> balanced (Seq2 T U).
Proof.
  intros HT HU. apply balanced_Seq.
  repeat constructor; auto using balanced_True_T.
Qed.

Lemma balanced_Or2 (T U : Rule P) :
  balanced T -> balanced U -> balanced (Or2 T U).
Proof.
  intros HT HU. apply balanced_Or.
  repeat constructor; auto using balanced_False_T.
Qed.

Lemma balanced_while_Match R n k p q :
  balanced R -> final_state (while_Match R n k p) = Some q ->
  OpenNodes q = OpenNodes p.
Proof.
  intros HR. revert p.
  induction k as [|k IH]; intros p H; simpl in H; [discriminate|].
  case_Match R n p; simpl in H; inversion H; subst;
    eauto using balanced_Ret, balanced_Throw.
  rewrite (IH _ H). eauto using balanced_Ret.
Qed.

Lemma balanced_Star R : balanced R -> balanced (Star R).
Proof.
  intros HR n p q H. unfold Star in H. destruct (AtEnd p).
  - now inversion H.
  - eapply balanced_while_Match; eauto.
Qed.

Lemma balanced_Plus R : balanced R -> balanced (Plus R).
Proof.
  intros HR n p q H. unfold Plus in H.
  case_Match R n p; simpl in H; inversion H; subst;
    eauto using balanced_Ret, balanced_Throw.
  rewrite <- (balanced_Ret R n p true q0 HR E).
  apply (balanced_Star R HR n).
  destruct (Star R n q0) as [b q'| q'| |]; simpl in *; congruence.
Qed.

Lemma balanced_Opt R : balanced R -> balanced (Opt R).
Proof.
  intros HR n p q H. unfold Opt in H. destruct (AtEnd p).
  - now inversion H.
  - case_Match R n p; simpl in H; inversion H; subst;
      eauto using balanced_Ret, balanced_Throw.
Qed.

Lemma balanced_Repeat_loop R (p0 : P) i n p q :
  balanced R -> OpenNodes p = OpenNodes p0 ->
  final_state (Repeat_loop R (GetPos p0) i n p) = Some q ->
  OpenNodes q = OpenNodes p0.
Proof.
  intros HR. revert p.
  induction i as [|i IH]; intros p Hp H; simpl in H.
  - inversion H; subst. exact Hp.
  - case_Match R n p; simpl in H; inversion H; subst.
    + apply (IH q0); [|assumption].
      rewrite <- Hp. eauto using balanced_Ret.
    + apply OpenNodes_SetPos. rewrite <- Hp. eauto using balanced_Ret.
    + rewrite <- Hp. eauto using balanced_Throw.
Qed.

Lemma balanced_Repeat R N : balanced R -> balanced (Repeat R N).
Proof.
  intros HR n p q H. unfold Repeat in H.
  eapply balanced_Repeat_loop; eauto.
Qed.

Lemma balanced_UntilPast_loop R (p0 : P) n k p q :
  balanced R -> OpenNodes p = OpenNodes p0 ->
  final_state (UntilPast_loop R (GetPos p0) n k p) = Some q ->
  OpenNodes q = OpenNodes p0.
Proof.
  intros HR. revert p.
  induction k as [|k IH]; intros p Hp H; simpl in H; [discriminate|].
  case_Match R n p; simpl in H; try discriminate.
  - inversion H; subst. rewrite <- Hp. eauto using balanced_Ret.
  - unfold call_GotoNext in H. destruct (AtEnd q0); [discriminate|].
    assert (Hq : OpenNodes (GotoNext q0) = OpenNodes p0).
    { rewrite OpenNodes_GotoNext, <- Hp. eauto using balanced_Ret. }
    destruct (AtEnd (GotoNext q0)).
    + inversion H; subst. now apply OpenNodes_SetPos.
    + eapply IH; eauto.
  - inversion H; subst. rewrite <- Hp. eauto using balanced_Throw.
Qed.

Lemma balanced_UntilPast R : balanced R -> balanced (UntilPast R).
Proof.
  intros HR n p q H. unfold UntilPast in H.
  eapply balanced_UntilPast_loop; eauto.
Qed.

Lemma balanced_UntilAt R : balanced R -> balanced (UntilAt R).
Proof. intros HR. apply balanced_UntilPast, balanced_At, HR. Qed.

Lemma balanced_StoreFinao id R : balanced R -> balanced (StoreFinao id R).
Proof. intros HR. apply balanced_Store, balanced_Finao, HR. Qed.

(** C2 (Store/abandon symmetry).  [Store<Label, R>] starts a node with the
    label and runs [R] on the parser so extended.  When [R] returns true the
    node is completed and [Store] returns true; when [R] returns false the
    node is abandoned and [Store] returns false; when an exception leaves
    [R] the node is abandoned and the exception goes on.  For a balanced
    [R], however the call ends, the nodes open afterwards are exactly those
    open before it, and the started node was closed in exactly one way:
    completed when [Store] returned true, abandoned otherwise. *)
Theorem Store_abandon_symmetry id R :
  balanced R ->
  forall n p,
    (forall q, R n (StartNode id p) = Ret true q ->
               Store id R n p = Ret true (CompleteNode id q)) /\
    (forall q, R n (StartNode id p) = Ret false q ->
               Store id R n p = Ret false (AbandonNode id q)) /\
    (forall q, R n (StartNode id p) = Throw q ->
               Store id R n p = Throw (AbandonNode id q)) /\
    (forall p', final_state (Store id R n p) = Some p' ->
       OpenNodes p' = OpenNodes p /\
       exists q,
         final_state (R n (StartNode id p)) = Some q /\
         OpenNodes q = id :: OpenNodes p /\
         ((Store id R n p = Ret true p' /\ p' = CompleteNode id q) \/
          ((Store id R n p = Ret false p' \/ Store id R n p = Throw p') /\
           p' = AbandonNode id q))).
Proof.
  intros HR n p. split; [|split; [|split]].
  - intros q E. unfold Store. now rewrite E.
  - intros q E. unfold Store. now rewrite E.
  - intros q E. unfold Store. now rewrite E.
  - intros p' H. split.
    + exact (balanced_Store id R HR n p p' H).
    + unfold Store in *.
      destruct (R n (StartNode id p)) as [[|] q| q| |] eqn:E;
        simpl in H; inversion H; subst; exists q;
        (split; [reflexivity|]);
        (split; [apply (Store_closes id R n p); [exact HR | now rewrite E]|]);
        auto.
Qed.

End Nodes.

(** ** Ordered choice and sequence *)

Section ChoiceAndSequence.

Context {P : Type} {PS : ParserState P} {PL : ParserLaws PS}.

Implicit Types (R A : Rule P) (rs pre post : list (Rule P)) (n : nat) (p q : P).

Lemma first_of_first_success pre R post n p p' :
  Forall (fails_at n p) pre -> R n p = Ret true p' ->
  first_of (pre ++ R :: post) n p = Ret true p'.
Proof.
  induction 1 as [|A pre HA _ IH]; intros HR; simpl.
  - now rewrite HR.
  - rewrite HA. auto.
Qed.

Lemma first_of_all_fail rs n p :
  Forall (fails_at n p) rs -> first_of rs n p = Ret false p.
Proof.
  induction 1 as [|A rs HA _ IH]; simpl; [reflexivity|].
  now rewrite HA.
Qed.

Lemma first_of_false rs n p p' :
  Forall transparent rs -> first_of rs n p = Ret false p' ->
  p' = p /\ Forall (fails_at n p) rs.
Proof.
  induction 1 as [|A rs HA _ IH]; intros H; simpl in H.
  - inversion H. auto.
  - case_Match A n p; try discriminate.
    pose proof (HA _ _ _ E); subst q.
    destruct (IH H) as [-> HF]. auto.
Qed.

(** C7 (ordered-choice determinism).  [Or] over at most ten alternatives
    [rs] (the rest of the template filled with [False_T]) is the
    left-to-right reading [first_of rs].  When the alternatives before [R]
    fail and [R] returns true, [Or] returns true with the parser exactly as
    [R] left it, whatever the later alternatives are: replacing them by any
    other rules gives the same outcome, so none of them runs.  With
    transparent alternatives [Or] returns false only when every alternative
    returned false on the parser as it was at entry, and it then leaves that
    parser unchanged; and when they all fail so, [Or] returns false. *)
Theorem Or_ordered_choice rs n p :
  List.length rs <= 10 ->
  (forall T0 T1 T2 T3 T4 T5 T6 T7 T8 T9 : Rule P,
      rs = [T0; T1; T2; T3; T4; T5; T6; T7; T8; T9] ->
      Or T0 T1 T2 T3 T4 T5 T6 T7 T8 T9 n p = Or_of rs n p) /\
  Or_of rs n p = first_of rs n p /\
  (forall pre R post p',
      rs = pre ++ R :: post ->
      Forall (fails_at n p) pre -> R n p = Ret true p' ->
      Or_of rs n p = Ret true p' /\
      forall post', List.length (pre ++ R :: post') <= 10 ->
                    Or_of (pre ++ R :: post') n p = Ret true p') /\
  (Forall transparent rs ->
   forall p', Or_of rs n p = Ret false p' ->
              p' = p /\ Forall (fails_at n p) rs) /\
  (Forall (fails_at n p) rs -> Or_of rs n p = Ret false p).
Proof.
  intros Hlen. split; [now intros T0 T1 T2 T3 T4 T5 T6 T7 T8 T9 ->|].
  split; [now apply Or_of_first_of|]. split; [|split].
  - intros pre R post p' -> Hpre HR. split.
    + rewrite Or_of_first_of by assumption.
      now apply first_of_first_success.
    + intros post' Hlen'. rewrite Or_of_first_of by assumption.
      now apply first_of_first_success.
  - intros Htr p' H. rewrite Or_of_first_of in H by assumption.
    now apply first_of_false.
  - intros H. rewrite Or_of_first_of by assumption.
    now apply first_of_all_fail.
Qed.

Lemma in_order_cons_true R rs n p p' :
  in_order (R :: rs) n p = Ret true p' <->
  exists q, R n p = Ret true q /\ in_order rs n q = Ret true p'.
Proof.
  simpl. case_Match R n p; split.
  - eauto.
  - intros (q' & E' & H). now inversion E'.
  - discriminate.
  - intros (q' & E' & H). discriminate.
  - discriminate.
  - intros (q' & E' & H). discriminate.
  - discriminate.
  - intros (q' & E' & H). discriminate.
  - discriminate.
  - intros (q' & E' & H). discriminate.
Qed.

Lemma in_order_false rs n p q' :
  in_order rs n p = Ret false q' ->
  exists pre R post q,
    rs = pre ++ R :: post /\ in_order pre n p = Ret true q /\
    R n q = Ret false q'.
Proof.
  revert p. induction rs as [|A rs IH]; intros p H; simpl in H.
  - discriminate.
  - case_Match A n p; try discriminate.
    + destruct (IH _ H) as (pre & R & post & q0 & -> & Hpre & HR).
      exists (A :: pre), R, post, q0. simpl. rewrite E. auto.
    + inversion H; subst. exists [], A, rs, p. auto.
Qed.

Lemma in_order_first_failure pre R post n p q q' :
  in_order pre n p = Ret true q -> R n q = Ret false q' ->
  in_order (pre ++ R :: post) n p = Ret false q'.
Proof.
  intros Hpre HR. rewrite in_order_app, Hpre. simpl. now rewrite HR.
Qed.

(** C6 (sequence atomicity).  [Seq] over at most ten rules [rs] (the rest of
    the template filled with [True_T]) runs them left to right, each from
    where the previous one stopped, up to the first that does not return
    true.  It returns true exactly when they all do, with the parser where
    the last one left it.  When the first failing rule is [R], after the
    rules [pre] before it succeeded, the rules after [R] do not run and
    [Seq] returns false with the position saved at entry set back; the
    position read afterwards is the one at entry, and with restorable rules
    the whole parser is as it was at entry.  A call that returns does one or
    the other. *)
Theorem Seq_atomicity rs n p :
  List.length rs <= 10 ->
  (forall T0 T1 T2 T3 T4 T5 T6 T7 T8 T9 : Rule P,
      rs = [T0; T1; T2; T3; T4; T5; T6; T7; T8; T9] ->
      Seq T0 T1 T2 T3 T4 T5 T6 T7 T8 T9 n p = Seq_of rs n p) /\
  Seq_of rs n p = Seq_result (GetPos p) (in_order rs n p) /\
  (forall p', Seq_of rs n p = Ret true p' <-> in_order rs n p = Ret true p') /\
  (forall pre R post q q',
      rs = pre ++ R :: post ->
      in_order pre n p = Ret true q -> R n q = Ret false q' ->
      Seq_of rs n p = Ret false (SetPos (GetPos p) q') /\
      forall post', List.length (pre ++ R :: post') <= 10 ->
        Seq_of (pre ++ R :: post') n p = Ret false (SetPos (GetPos p) q')) /\
  (forall p', Seq_of rs n p = Ret false p' ->
      GetPos p' = GetPos p /\
      exists pre R post q q',
        rs = pre ++ R :: post /\ in_order pre n p = Ret true q /\
        R n q = Ret false q' /\ p' = SetPos (GetPos p) q') /\
  (Forall restorable rs ->
   forall p', Seq_of rs n p = Ret false p' -> p' = p) /\
  (forall b p', Seq_of rs n p = Ret b p' ->
      (b = true /\ in_order rs n p = Ret true p') \/
      (b = false /\ GetPos p' = GetPos p)).
Proof.
  intros Hlen.
  assert (Heq := Seq_of_in_order rs n p Hlen).
  split; [now intros T0 T1 T2 T3 T4 T5 T6 T7 T8 T9 ->|].
  split; [exact Heq|]. split; [|split; [|split; [|split]]].
  - intros p'. rewrite Heq.
    destruct (in_order rs n p) as [[|] q| q| |]; simpl; split;
      intros H; try discriminate; assumption.
  - intros pre R post q q' -> Hpre HR. split.
    + rewrite Heq, (in_order_first_failure pre R post n p q q' Hpre HR).
      reflexivity.
    + intros post' Hlen'. rewrite Seq_of_in_order by assumption.
      rewrite (in_order_first_failure pre R post' n p q q' Hpre HR).
      reflexivity.
  - intros p' H. rewrite Heq in H.
    destruct (in_order rs n p) as [[|] q| q| |] eqn:E; simpl in H;
      inversion H; subst.
    split; [apply GetPos_SetPos|].
    destruct (in_order_false rs n p q E) as (pre & R & post & q0 & ? & ? & ?).
    exists pre, R, post, q0, q. auto.
  - intros Hres p' H. rewrite Heq in H.
    destruct (in_order rs n p) as [[|] q| q| |] eqn:E; simpl in H;
      inversion H; subst.
    exact (restorable_in_order rs Hres n p false q E).
  - intros b p' H. rewrite Heq in H.
    destruct (in_order rs n p) as [[|] q| q| |] eqn:E; simpl in H;
      inversion H; subst.
    + left. auto.
    + right. split; [reflexivity | apply GetPos_SetPos].
Qed.

End ChoiceAndSequence.

(** ** Repetition *)

Section Repetition.

Context {P : Type} {PS : ParserState P}.

Implicit Types (R T : Rule P) (n k j : nat) (p q : P).

Lemma while_Match_reps R n k p p' :
  while_Match R n k p = Ret true p' ->
  exists j q, j < k /\ repeat_Match R n j p = Some q /\ R n q = Ret false p'.
Proof.
  revert p. induction k as [|k IH]; intros p H; simpl in H; [discriminate|].
  case_Match R n p; try discriminate.
  - destruct (IH _ H) as (j & q0 & Hj & Hrep & Hq).
    exists (S j), q0. simpl. rewrite E. repeat split; auto. lia.
  - inversion H; subst. exists 0, p. simpl. repeat split; auto. lia.
Qed.

Lemma repeat_Match_stops R n j p q p' :
  repeat_Match R n j p = Some q -> R n q = Ret false p' ->
  forall i, j < i -> repeat_Match R n i p = None.
Proof.
  revert p. induction j as [|j IH]; intros p Hrep Hq i Hi; simpl in Hrep.
  - inversion Hrep; subst. destruct i; [lia|]. simpl. now rewrite Hq.
  - destruct i; [lia|]. simpl.
    case_Match R n p; try discriminate. apply (IH _ Hrep Hq). lia.
Qed.

(** The loop ends when every successful match consumes input. *)
Lemma while_Match_halts (remaining : P -> nat) R :
  monotone R -> halts R -> consumes remaining R ->
  forall p, exists n0 o, o <> OutOfFuel /\
    forall n k, n0 <= n -> n0 <= k -> while_Match R n k p = o.
Proof.
  intros Hmono Hhalts Hcons p.
  remember (remaining p) as m eqn:Hm. revert p Hm.
  induction m as [m IH] using lt_wf_ind. intros p Hm.
  destruct (Hhalts p) as [n1 Hn1].
  assert (Hfix : forall n, n1 <= n -> R n p = R n1 p)
    by (intros n Hn; now apply Hmono).
  destruct (R n1 p) as [[|] q| q| |] eqn:E.
  - destruct (IH (remaining q)) with (p := q) as (n2 & o & Ho & Hloop).
    { subst m. eapply Hcons; eauto. }
    { reflexivity. }
    exists (Nat.max n1 (S n2)), o. split; [assumption|].
    intros n k Hn Hk. destruct k as [|k]; [lia|]. simpl.
    rewrite Hfix by lia. apply Hloop; lia.
  - exists (Nat.max n1 1), (Ret true q). split; [discriminate|].
    intros n k Hn Hk. destruct k as [|k]; [lia|]. simpl.
    rewrite Hfix by lia. reflexivity.
  - exists (Nat.max n1 1), (Throw q). split; [discriminate|].
    intros n k Hn Hk. destruct k as [|k]; [lia|]. simpl.
    rewrite Hfix by lia. reflexivity.
  - exists (Nat.max n1 1), Undefined. split; [discriminate|].
    intros n k Hn Hk. destruct k as [|k]; [lia|]. simpl.
    rewrite Hfix by lia. reflexivity.
  - congruence.
Qed.

Lemma Star_halts (remaining : P -> nat) R :
  monotone R -> halts R -> consumes remaining R ->
  forall p, exists n0 o, o <> OutOfFuel /\
    forall n, n0 <= n -> Star R n p = o.
Proof.
  intros Hmono Hhalts Hcons p. unfold Star. destruct (AtEnd p).
  - exists 0, (Ret true p). split; [discriminate | reflexivity].
  - destruct (while_Match_halts remaining R Hmono Hhalts Hcons p)
      as (n0 & o & Ho & Hloop).
    exists n0, o. auto.
Qed.

Lemma Star_at_end R n p : AtEnd p = true -> Star R n p = Ret true p.
Proof. intros H. unfold Star. now rewrite H. Qed.

Lemma Star_maximal R n p p' :
  AtEnd p = false -> Star R n p = Ret true p' ->
  exists j q,
    repeat_Match R n j p = Some q /\ R n q = Ret false p' /\
    forall i, j < i -> repeat_Match R n i p = None.
Proof.
  intros Hend H. unfold Star in H. rewrite Hend in H.
  destruct (while_Match_reps R n n p p' H) as (j & q & _ & Hrep & Hq).
  exists j, q. repeat split; auto.
  eapply repeat_Match_stops; eauto.
Qed.

Lemma Star_then_fails R T n p p' q :
  Star R n p = Ret true p' -> T n p' = Ret false q ->
  Seq2 (Star R) T n p = Ret false (SetPos (GetPos p) q).
Proof.
  intros HS HT. rewrite Seq2_in_order. simpl. rewrite HS, HT. reflexivity.
Qed.

(** [Star] has no exception and no undefined call of its own. *)
Lemma while_Match_Throw R n k p q :
  while_Match R n k p = Throw q -> exists q0, R n q0 = Throw q.
Proof.
  revert p. induction k as [|k IH]; intros p H; simpl in H; [discriminate|].
  case_Match R n p; try discriminate; eauto.
  inversion H; subst. eauto.
Qed.

Lemma while_Match_Undefined R n k p :
  while_Match R n k p = Undefined -> exists q0, R n q0 = Undefined.
Proof.
  revert p. induction k as [|k IH]; intros p H; simpl in H; [discriminate|].
  case_Match R n p; try discriminate; eauto.
Qed.

Lemma Star_not_returning R n p :
  (forall q, Star R n p = Throw q -> exists q0, R n q0 = Throw q) /\
  (Star R n p = Undefined -> exists q0, R n q0 = Undefined).
Proof.
  unfold Star. destruct (AtEnd p).
  - split; [intros q H | intros H]; discriminate.
  - split; [intros q H | intros H];
      eauto using while_Match_Throw, while_Match_Undefined.
Qed.

(** A rule that can return true without consuming keeps the loop of
    [Star] running for ever. *)
Lemma while_Match_diverges R n k p :
  (forall m, R m p = Ret true p) -> while_Match R n k p = OutOfFuel.
Proof.
  intros H. induction k as [|k IH]; simpl; [reflexivity|].
  now rewrite H.
Qed.

Lemma Star_diverges R p :
  AtEnd p = false -> (forall m, R m p = Ret true p) ->
  forall n, Star R n p = OutOfFuel.
Proof.
  intros Hend H n. unfold Star. rewrite Hend.
  now apply while_Match_diverges.
Qed.

(** C5, as amended (greedy repetition).  For a rule [R] that ends on every
    parser, whose result does not change with more fuel, and whose every
    successful match consumes input, [Star<R>] ends on every parser, with a
    result that no longer depends on the fuel.  Whenever [Star<R>] returns
    it returns true, and it ends otherwise only when a call of [R] does (by
    an exception or an undefined parser call).  At the end of the input it
    returns true at once, without running [R].  Elsewhere it stops at the
    first failure of [R]:
    the parser it leaves is the one after the largest number of successful
    matches of [R] in a row, as the failing match left it.  A rule [T] that
    fails after [Star<R>] in a sequence makes the sequence fail: [Star<R>]
    is not run again with fewer repetitions. *)
Theorem Star_greedy (remaining : P -> nat) R :
  monotone R -> halts R -> consumes remaining R ->
  forall p,
    (exists n0 o, o <> OutOfFuel /\ forall n, n0 <= n -> Star R n p = o) /\
    (forall n b p', Star R n p = Ret b p' -> b = true) /\
    (forall n,
       (forall q, Star R n p = Throw q -> exists q0, R n q0 = Throw q) /\
       (Star R n p = Undefined -> exists q0, R n q0 = Undefined)) /\
    (AtEnd p = true -> forall n, Star R n p = Ret true p) /\
    (AtEnd p = false ->
     forall n p', Star R n p = Ret true p' ->
       exists j q,
         repeat_Match R n j p = Some q /\ R n q = Ret false p' /\
         forall i, j < i -> repeat_Match R n i p = None) /\
    (forall T n p' q,
       Star R n p = Ret true p' -> T n p' = Ret false q ->
       Seq2 (Star R) T n p = Ret false (SetPos (GetPos p) q)).
Proof.
  intros Hmono Hhalts Hcons p. split; [|split; [|split; [|split; [|split]]]].
  - now apply (Star_halts remaining).
  - intros n b p'. apply Star_true.
  - intros n. apply Star_not_returning.
  - intros H n. now apply Star_at_end.
  - intros H n p'. now apply Star_maximal.
  - intros T n p' q. apply Star_then_fails.
Qed.

End Repetition.

(** ** Scanning ahead *)

Section Scanning.

Context {P : Type} {PS : ParserState P}.

Implicit Types (R : Rule P) (n k j : nat) (p q : P).

(** After the entry, the loop of [UntilPast] tries the rule only on parsers
    that are not at the end: two rules that agree there are interchangeable. *)
Lemma UntilPast_loop_ext R R' pos n k p :
  (forall m q, AtEnd q = false -> R m q = R' m q) ->
  AtEnd p = false ->
  UntilPast_loop R pos n k p = UntilPast_loop R' pos n k p.
Proof.
  intros Hext. revert p.
  induction k as [|k IH]; intros p Hp; simpl; [reflexivity|].
  rewrite <- (Hext n p Hp).
  case_Match R n p; try reflexivity.
  unfold call_GotoNext. destruct (AtEnd q); [reflexivity|].
  destruct (AtEnd (GotoNext q)) eqn:Hq; [reflexivity|]. now apply IH.
Qed.

Lemma UntilPast_ext R R' n p :
  (forall m q, AtEnd q = false -> R m q = R' m q) ->
  AtEnd p = false ->
  UntilPast R n p = UntilPast R' n p.
Proof. intros. unfold UntilPast. now apply UntilPast_loop_ext. Qed.

Lemma UntilPast_loop_EndOfInput_not_true pos n k p p' :
  AtEnd p = false -> UntilPast_loop EndOfInput_T pos n k p <> Ret true p'.
Proof.
  revert p. induction k as [|k IH]; intros p Hp; simpl; [discriminate|].
  unfold EndOfInput_T at 1. rewrite Hp.
  unfold call_GotoNext. rewrite Hp.
  destruct (AtEnd (GotoNext p)) eqn:Hq; [discriminate|]. now apply IH.
Qed.

Lemma UntilPast_EndOfInput_at_end n p :
  AtEnd p = true -> UntilPast EndOfInput_T (S n) p = Ret true p.
Proof.
  intros Hp. unfold UntilPast. simpl. unfold EndOfInput_T. now rewrite Hp.
Qed.

(** Entered at the end of the input with a rule that fails there,
    [UntilPast] calls [GotoNext] on a parser that is at the end. *)
Lemma UntilPast_at_end_undefined R n p p' :
  R (S n) p = Ret false p' -> AtEnd p' = true ->
  UntilPast R (S n) p = Undefined.
Proof.
  intros HR Hp. unfold UntilPast. simpl. rewrite HR.
  unfold call_GotoNext. now rewrite Hp.
Qed.

Lemma advance_S k p : advance (S k) p = GotoNext (advance k p).
Proof.
  revert p. induction k as [|k IH]; intros p; [reflexivity|].
  change (advance (S (S k)) p) with (advance (S k) (GotoNext p)).
  now rewrite IH.
Qed.

(** [j] failed attempts, each followed by an advance that does not reach
    the end. *)
Lemma UntilPast_loop_skip R pos n k j p :
  (forall i, i < j ->
     R n (advance i p) = Ret false (advance i p) /\
     AtEnd (advance i p) = false /\ AtEnd (advance (S i) p) = false) ->
  UntilPast_loop R pos n (j + k) p = UntilPast_loop R pos n k (advance j p).
Proof.
  revert p. induction j as [|j IH]; intros p H; simpl; [reflexivity|].
  destruct (H 0) as (HR & Hp & Hq); [lia|]. simpl in HR, Hp, Hq.
  rewrite HR. unfold call_GotoNext. rewrite Hp, Hq.
  apply IH. intros i Hi. apply (H (S i)). lia.
Qed.

Lemma UntilPast_found R n j p p' :
  (forall i, i < j ->
     R n (advance i p) = Ret false (advance i p) /\
     AtEnd (advance i p) = false /\ AtEnd (advance (S i) p) = false) ->
  R n (advance j p) = Ret true p' ->
  j < n ->
  UntilPast R n p = Ret true p'.
Proof.
  intros Hskip HR Hn. unfold UntilPast.
  replace n with (j + S (n - S j)) at 2 by lia.
  rewrite UntilPast_loop_skip by assumption. simpl. now rewrite HR.
Qed.

Context {PL : ParserLaws PS}.

Lemma SetPos_advance (a : Iterator) k p : SetPos a (advance k p) = SetPos a p.
Proof.
  revert p. induction k as [|k IH]; intros p; simpl; [reflexivity|].
  now rewrite IH, SetPos_GotoNext.
Qed.

Lemma UntilPast_exhausted R n j p :
  (forall i, i < j ->
     R n (advance i p) = Ret false (advance i p) /\
     AtEnd (advance i p) = false /\ AtEnd (advance (S i) p) = false) ->
  R n (advance j p) = Ret false (advance j p) ->
  AtEnd (advance j p) = false -> AtEnd (advance (S j) p) = true ->
  j < n ->
  UntilPast R n p = Ret false p.
Proof.
  intros Hskip HR Hj Hend Hn. unfold UntilPast.
  replace n with (j + S (n - S j)) at 2 by lia.
  rewrite UntilPast_loop_skip by assumption. simpl. rewrite HR.
  unfold call_GotoNext. rewrite Hj.
  rewrite <- advance_S, Hend, SetPos_advance, SetPos_GetPos. reflexivity.
Qed.

Context {FI : FiniteInput PS}.

Lemma UntilPast_loop_EndOfInput_false (p0 : P) n k p :
  SetPos (GetPos p0) p = p0 ->
  AtEnd p = false -> units_left p <= k ->
  UntilPast_loop EndOfInput_T (GetPos p0) n k p = Ret false p0.
Proof.
  revert p. induction k as [|k IH]; intros p Hp0 Hp Hk.
  - assert (H0 : units_left p = 0) by lia.
    apply units_left_AtEnd in H0. congruence.
  - simpl. unfold EndOfInput_T at 1. rewrite Hp.
    unfold call_GotoNext. rewrite Hp.
    pose proof (units_left_GotoNext p Hp) as Hleft.
    destruct (AtEnd (GotoNext p)) eqn:Hq.
    + now rewrite SetPos_GotoNext, Hp0.
    + apply IH; [now rewrite SetPos_GotoNext | assumption | lia].
Qed.

Lemma UntilPast_EndOfInput_false n p :
  AtEnd p = false -> units_left p <= n ->
  UntilPast EndOfInput_T n p = Ret false p.
Proof.
  intros Hp Hn. unfold UntilPast.
  apply UntilPast_loop_EndOfInput_false; auto using SetPos_GetPos.
Qed.

(** C10, as amended (end of input in [UntilPast]).  After each failed
    attempt [UntilPast<R>] advances and only then tests for the end, so
    apart from the attempt at entry [R] is tried only on parsers that are
    not at the end: entered before the end, [UntilPast<R>] and
    [UntilPast<R'>] have the same outcome whenever [R] and [R'] agree on
    the parsers that are not at the end.  Entered before the end,
    [UntilPast<EndOfInput_T>] never returns true, and on a finite input it
    returns false with the parser as it was at entry.  Entered at the end,
    [UntilPast<EndOfInput_T>] returns true at once; and [UntilPast<R>] with
    [R] failing there calls [GotoNext] on a parser that is at the end. *)
Theorem UntilPast_end_of_input :
  (forall R R' n p,
     (forall m q, AtEnd q = false -> R m q = R' m q) ->
     AtEnd p = false -> UntilPast R n p = UntilPast R' n p) /\
  (forall n p p',
     AtEnd p = false -> UntilPast EndOfInput_T n p <> Ret true p') /\
  (forall n p,
     AtEnd p = false -> units_left p <= n ->
     UntilPast EndOfInput_T n p = Ret false p) /\
  (forall n p,
     AtEnd p = true -> UntilPast EndOfInput_T (S n) p = Ret true p) /\
  (forall R n p p',
     AtEnd p = true -> R (S n) p = Ret false p' -> AtEnd p' = true ->
     UntilPast R (S n) p = Undefined).
Proof.
  split; [|split; [|split; [|split]]].
  - intros R R' n p. apply UntilPast_ext.
  - intros n p p' Hp. now apply UntilPast_loop_EndOfInput_not_true.
  - intros n p. apply UntilPast_EndOfInput_false.
  - intros n p. apply UntilPast_EndOfInput_at_end.
  - intros R n p p' _. apply UntilPast_at_end_undefined.
Qed.

End Scanning.

(** ** The contract as a whole *)

Section FailureTransparency.

Context {P : Type} {PS : ParserState P} {PL : ParserLaws PS}.
Context {NS : NodeStack PS}.

Lemma obeys_transparent (rs : list (Rule P)) :
  Forall obeys rs -> Forall transparent rs.
Proof. apply Forall_impl. now intros R [H _]. Qed.

Lemma obeys_restorable (rs : list (Rule P)) :
  Forall obeys rs -> Forall restorable rs.
Proof. apply Forall_impl. now intros R [_ H]. Qed.

Lemma transparent_leaves_no_trace (R : Rule P) :
  transparent R -> leaves_no_trace R.
Proof. intros H n p p' E. apply H in E. subst. auto. Qed.

(** C1 (failure transparency).  Let the sub-rules obey the matching
    contract: a failed match leaves the parser as it found it, and setting
    the position back to the one saved before a match undoes the match.
    Then for every rule of the file ([Store], [Finao], [True_T], [False_T],
    [EndOfInput_T], [At], [NotAt], [Or], [Seq], [Star], [Plus], [Opt],
    [Repeat], [UntilPast], [UntilAt]) and every parser, a call that returns
    false leaves the parser equal to what it was before the call: the same
    position, the same open nodes, and nothing else changed. *)
Theorem failure_transparency
  (id : Z) (N : nat) (R T0 T1 T2 T3 T4 T5 T6 T7 T8 T9 : Rule P) :
  obeys R ->
  Forall obeys [T0; T1; T2; T3; T4; T5; T6; T7; T8; T9] ->
  leaves_no_trace (Store id R) /\
  leaves_no_trace (Finao R) /\
  leaves_no_trace (True_T (P := P)) /\
  leaves_no_trace (False_T (P := P)) /\
  leaves_no_trace (EndOfInput_T (P := P)) /\
  leaves_no_trace (At R) /\
  leaves_no_trace (NotAt R) /\
  leaves_no_trace (Or T0 T1 T2 T3 T4 T5 T6 T7 T8 T9) /\
  leaves_no_trace (Seq T0 T1 T2 T3 T4 T5 T6 T7 T8 T9) /\
  leaves_no_trace (Star R) /\
  leaves_no_trace (Plus R) /\
  leaves_no_trace (Opt R) /\
  leaves_no_trace (Repeat R N) /\
  leaves_no_trace (UntilPast R) /\
  leaves_no_trace (UntilAt R).
Proof.
  intros [Htr Hres] Hall.
  pose proof (obeys_transparent _ Hall) as Htrs.
  pose proof (obeys_restorable _ Hall) as Hress.
  repeat apply conj; apply transparent_leaves_no_trace.
  - now apply transparent_Store.
  - apply transparent_Finao.
  - apply transparent_True_T.
  - apply transparent_False_T.
  - apply transparent_EndOfInput_T.
  - now apply transparent_At.
  - now apply transparent_NotAt.
  - now apply transparent_Or.
  - now apply transparent_Seq.
  - apply transparent_Star.
  - now apply transparent_Plus.
  - apply transparent_Opt.
  - now apply transparent_Repeat.
  - now apply transparent_UntilPast.
  - now apply transparent_UntilAt.
Qed.

End FailureTransparency.

(** ** The text parser obeys the parser's side of the contract *)

#[global] Instance TextParser_laws : ParserLaws TextParser.parser.
Proof.
  split.
  - intros [s k t o]. reflexivity.
  - intros [s k t o] p. reflexivity.
  - reflexivity.
  - reflexivity.
  - intros id [s k t o]. reflexivity.
Qed.

Lemma TextParser_open_complete (id : Z) (c : TextParser.Cursor) :
  TextParser.open_labels (TextParser.complete_node id c) =
  tl (TextParser.open_labels c).
Proof.
  unfold TextParser.open_labels, TextParser.complete_node.
  destruct c as [s k t [|o [|parent rest]]]; reflexivity.
Qed.

Lemma TextParser_open_abandon (id : Z) (c : TextParser.Cursor) :
  TextParser.open_labels (TextParser.abandon_node id c) =
  tl (TextParser.open_labels c).
Proof.
  unfold TextParser.open_labels, TextParser.abandon_node.
  destruct c as [s k t [|o rest]]; reflexivity.
Qed.

#[global] Instance TextParser_nodes : NodeStack TextParser.parser := {
  OpenNodes := TextParser.open_labels;
  OpenNodes_StartNode := fun id p => eq_refl;
  OpenNodes_CompleteNode := TextParser_open_complete;
  OpenNodes_AbandonNode := TextParser_open_abandon;
  OpenNodes_GotoNext := fun p => eq_refl;
  OpenNodes_SetPos := fun p q _ => eq_refl
}.

Lemma TextParser_at_end_remaining (c : TextParser.Cursor) :
  TextParser.at_end c = true <-> TextParser.remaining c = 0.
Proof.
  unfold TextParser.at_end, TextParser.remaining.
  rewrite Nat.leb_le. lia.
Qed.

Lemma TextParser_goto_next_remaining (c : TextParser.Cursor) :
  TextParser.at_end c = false ->
  S (TextParser.remaining (TextParser.goto_next c)) = TextParser.remaining c.
Proof.
  unfold TextParser.at_end, TextParser.remaining. simpl.
  rewrite Nat.leb_gt. lia.
Qed.

#[global] Instance TextParser_finite : FiniteInput TextParser.parser := {
  units_left := TextParser.remaining;
  units_left_AtEnd := TextParser_at_end_remaining;
  units_left_GotoNext := TextParser_goto_next_remaining
}.

(** A position of the text parser is a snapshot of the whole parser. *)
Lemma TextParser_snapshot (p q : TextParser.Cursor) :
  SetPos (GetPos p) q = p.
Proof. destruct p. reflexivity. Qed.

Lemma TextParser_restorable (R : Rule TextParser.Cursor) : restorable R.
Proof. intros n p b p' _. apply TextParser_snapshot. Qed.

Lemma Digit_transparent : transparent TextParser.Digit.
Proof.
  intros n p p' H. unfold TextParser.Digit in H.
  destruct (String.get _ _) as [a|]; [destruct (TextParser.is_digit a)|];
    now inversion H.
Qed.

Lemma Digit_obeys : obeys TextParser.Digit.
Proof. split; [apply Digit_transparent | apply TextParser_restorable]. Qed.

Lemma Literal_transparent (s : string) : transparent (TextParser.Literal s).
Proof.
  intros n p p' H. unfold TextParser.Literal in H.
  destruct (String.eqb _ _); now inversion H.
Qed.

Lemma Literal_obeys (s : string) : obeys (TextParser.Literal s).
Proof. split; [apply Literal_transparent | apply TextParser_restorable]. Qed.

Lemma Digit_monotone : monotone TextParser.Digit.
Proof. intros n m p _ _. reflexivity. Qed.

Lemma Digit_halts : halts TextParser.Digit.
Proof.
  intros p. exists 0. unfold TextParser.Digit.
  destruct (String.get _ _) as [a|]; [destruct (TextParser.is_digit a)|];
    discriminate.
Qed.

Lemma get_Some_length (k : nat) (s : string) (a : ascii) :
  String.get k s = Some a -> k < String.length s.
Proof.
  revert k. induction s as [|b s IH]; intros k H; simpl in *.
  - destruct k; discriminate.
  - destruct k as [|k]; [lia|]. apply IH in H. lia.
Qed.

Lemma Digit_consumes : consumes TextParser.remaining TextParser.Digit.
Proof.
  intros n p p' H. unfold TextParser.Digit in H.
  destruct (String.get _ _) as [a|] eqn:E; [|discriminate].
  destruct (TextParser.is_digit a); inversion H; subst.
  apply get_Some_length in E.
  unfold TextParser.remaining. simpl. lia.
Qed.

Lemma Digit_balanced : balanced TextParser.Digit.
Proof.
  intros n p q H. unfold TextParser.Digit in H.
  destruct (String.get _ _) as [a|]; [destruct (TextParser.is_digit a)|];
    now inversion H.
Qed.

(** ** Mandatory match *)

Open Scope string_scope.

Lemma FinaoIf_scenario (n : nat) :
  FinaoIf (TextParser.Literal "#") (Plus TextParser.Digit) n
    (TextParser.start "#xy") =
  Throw (TextParser.mkCursor "#xy" 1 [] []).
Proof.
  apply (FinaoIf_escalates _ _ n _ (TextParser.mkCursor "#xy" 1 [] [])
           (TextParser.mkCursor "#xy" 1 [] [])); reflexivity.
Qed.

(** C3 (mandatory match).  On any parser, [Finao<R>] returns true, leaving
    the parser as [R] left it, when [R] returns true; it throws when [R]
    returns false; and it never returns false.  So [FinaoIf<guard, rule>],
    the sequence of [guard] and [Finao<rule>], throws whenever [guard]
    returns true and [rule] then returns false.  The spec's scenario:
    [FinaoIf<Literal("#"), Plus<Digit>>] on the input "#xy" throws, with the
    cursor after the "#". *)
Theorem Finao_escalation :
  (forall (P : Type) (PS : ParserState P) (R : Rule P) n p p',
     R n p = Ret true p' -> Finao R n p = Ret true p') /\
  (forall (P : Type) (PS : ParserState P) (R : Rule P) n p p',
     R n p = Ret false p' -> Finao R n p = Throw p') /\
  (forall (P : Type) (PS : ParserState P) (R : Rule P) n p p',
     Finao R n p <> Ret false p') /\
  (forall (P : Type) (PS : ParserState P) (guard rule : Rule P) n p p1 p2,
     guard n p = Ret true p1 -> rule n p1 = Ret false p2 ->
     FinaoIf guard rule n p = Throw p2) /\
  (forall n,
     FinaoIf (TextParser.Literal "#") (Plus TextParser.Digit) n
       (TextParser.start "#xy") =
     Throw (TextParser.mkCursor "#xy" 1 [] [])).
Proof.
  split; [|split; [|split; [|split]]].
  - intros P PS R n p p'. apply Finao_true.
  - intros P PS R n p p'. apply Finao_false.
  - intros P PS R n p p'. apply Finao_never_false.
  - intros P PS guard rule n p p1 p2. apply FinaoIf_escalates.
  - apply FinaoIf_scenario.
Qed.

(** ** The scenarios of [UntilPast] *)

Lemma UntilPast_scenario_found (n : nat) :
  2 < n ->
  UntilPast (TextParser.Literal ";") n (TextParser.start "ab;cd") =
  Ret true (TextParser.mkCursor "ab;cd" 3 [] []).
Proof.
  intros Hn. apply (UntilPast_found _ n 2); [|reflexivity|assumption].
  intros i Hi. destruct i as [|[|i]]; [| |lia]; repeat split.
Qed.

Lemma UntilPast_scenario_exhausted (n : nat) :
  3 < n ->
  UntilPast (TextParser.Literal ";") n (TextParser.start "abcd") =
  Ret false (TextParser.start "abcd").
Proof.
  intros Hn.
  apply (UntilPast_exhausted _ n 3); try reflexivity; [|assumption].
  intros i Hi. destruct i as [|[|[|i]]]; [| | |lia]; repeat split.
Qed.

Lemma UntilPast_scenario_empty (n : nat) :
  UntilPast (TextParser.Literal ";") (S n) (TextParser.start "") = Undefined.
Proof.
  apply (UntilPast_at_end_undefined _ n _ (TextParser.start ""));
    reflexivity.
Qed.

(** C8 ([UntilPast], evaluated).  Against "ab;cd", [UntilPast<Literal(";")>]
    returns true with the cursor at offset 3, just past the ";".  Against
    "abcd" it returns false with the parser as at entry.  Against the empty
    input, where the cursor is at the end on entry, the rule fails and the
    loop calls [GotoNext] on a parser that is at the end: the outcome is
    [Undefined], not a false return. *)
Theorem UntilPast_evaluated :
  (forall n, 2 < n ->
     UntilPast (TextParser.Literal ";") n (TextParser.start "ab;cd") =
     Ret true (TextParser.mkCursor "ab;cd" 3 [] [])) /\
  (forall n, 3 < n ->
     UntilPast (TextParser.Literal ";") n (TextParser.start "abcd") =
     Ret false (TextParser.start "abcd")) /\
  (forall n,
     UntilPast (TextParser.Literal ";") (S n) (TextParser.start "") =
     Undefined).
Proof.
  split; [|split].
  - apply UntilPast_scenario_found.
  - apply UntilPast_scenario_exhausted.
  - apply UntilPast_scenario_empty.
Qed.

(** ** Where the claims about loops fail *)

(** C5, refuted as stated.  [Star<True_T>] on the input "a" never ends:
    [True_T] returns true without consuming, so the [while] loop has no
    exit.  No amount of fuel yields a result. *)
Lemma Star_True_T_never_ends :
  ~ (exists n, Star True_T n (TextParser.start "a") <> OutOfFuel).
Proof.
  intros [n H]. apply H.
  apply Star_diverges; reflexivity.
Qed.

(** The same with a rule a grammar would really contain: an optional
    digit under a star. *)
Lemma Star_Opt_never_ends (n : nat) :
  Star (Opt TextParser.Digit) n (TextParser.start "a") = OutOfFuel.
Proof. apply Star_diverges; reflexivity. Qed.

(** A rule that consumes and then matches the end without consuming:
    after the last unit is consumed the loop of [Star] does not stop at the
    end of the input. *)
Lemma Star_at_the_end_never_ends (n : nat) :
  Star (Or2 TextParser.Digit EndOfInput_T) n (TextParser.start "1") =
  OutOfFuel.
Proof.
  unfold Star. simpl.
  destruct n as [|n]; [reflexivity|]. simpl.
  apply while_Match_diverges. reflexivity.
Qed.

(** C10, refuted as stated.  On the empty input the cursor is at the end
    on entry; [UntilPast<EndOfInput_T>] tries [EndOfInput_T] there, it
    matches, and the call returns true. *)
Lemma UntilPast_EndOfInput_true_on_empty :
  AtEnd (TextParser.start "") = true /\
  UntilPast EndOfInput_T 1 (TextParser.start "") =
  Ret true (TextParser.start "").
Proof. split; reflexivity. Qed.

(** ** The theorems at concrete inputs *)

Lemma failure_transparency_witness :
  Seq2 TextParser.Digit TextParser.Digit 0 (TextParser.start "1a") =
    Ret false (TextParser.start "1a") /\
  leaves_no_trace (Seq TextParser.Digit TextParser.Digit True_T True_T True_T
                     True_T True_T True_T True_T True_T) /\
  leaves_no_trace (NotAt TextParser.Digit) /\
  leaves_no_trace (Repeat TextParser.Digit 2) /\
  leaves_no_trace (UntilPast TextParser.Digit) /\
  leaves_no_trace (Store 1 TextParser.Digit).
Proof.
  assert (Htrue : obeys (True_T (P := TextParser.Cursor))).
  { split; [apply transparent_True_T | apply TextParser_restorable]. }
  destruct (failure_transparency 1 2 TextParser.Digit
              TextParser.Digit TextParser.Digit True_T True_T True_T
              True_T True_T True_T True_T True_T Digit_obeys)
    as (HStore & _ & _ & _ & _ & _ & HNotAt & _ & HSeq & _ & _ & _ &
        HRepeat & HUntil & _).
  { repeat constructor; try apply Digit_obeys; apply Htrue. }
  repeat apply conj; try assumption. reflexivity.
Defined.

Lemma Store_abandon_symmetry_witness :
  Store 1 (Seq2 (Store 2 TextParser.Digit) (Finao TextParser.Digit)) 1
    (TextParser.start "1x") =
    Throw (TextParser.mkCursor "1x" 1 [] []) /\
  OpenNodes (TextParser.mkCursor "1x" 1 [] []) =
    OpenNodes (TextParser.start "1x").
Proof.
  split; [reflexivity|].
  apply (Store_abandon_symmetry 1
           (Seq2 (Store 2 TextParser.Digit) (Finao TextParser.Digit))
           (balanced_Seq2 _ _
              (balanced_Store 2 _ Digit_balanced)
              (balanced_Finao _ Digit_balanced))
           1 (TextParser.start "1x")).
  reflexivity.
Defined.

Lemma lookahead_purity_witness :
  exists p',
    At TextParser.Digit 0 (TextParser.start "7") = Ret true p' /\
    GetPos p' = GetPos (TextParser.start "7").
Proof.
  destruct (lookahead_purity TextParser.Digit
              (transparent_restores_position _ Digit_transparent)
              0 (TextParser.start "7"))
    as (HAt & _).
  eexists. split; [reflexivity|].
  apply (HAt true). reflexivity.
Defined.

Lemma sentinel_neutrality_witness :
  Seq2 TextParser.Digit True_T 0 (TextParser.start "a") =
    TextParser.Digit 0 (TextParser.start "a") /\
  Or2 TextParser.Digit False_T 0 (TextParser.start "a") =
    TextParser.Digit 0 (TextParser.start "a").
Proof.
  destruct (sentinel_neutrality (PL := TextParser_laws))
    as (_ & _ & HOr & HSeq).
  split.
  - apply HSeq. apply transparent_restores_position, Digit_transparent.
  - apply HOr.
Defined.

Lemma Star_greedy_witness :
  exists n0 o, o <> OutOfFuel /\
    forall n, n0 <= n -> Star TextParser.Digit n (TextParser.start "12a") = o.
Proof.
  apply (Star_greedy TextParser.remaining TextParser.Digit
           Digit_monotone Digit_halts Digit_consumes
           (TextParser.start "12a")).
Defined.

Lemma Seq_atomicity_witness :
  Seq_of [TextParser.Digit; TextParser.Digit] 0 (TextParser.start "1a") =
    Ret false (TextParser.start "1a") /\
  forall p',
    Seq_of [TextParser.Digit; TextParser.Digit] 0 (TextParser.start "1a") =
      Ret false p' ->
    p' = TextParser.start "1a".
Proof.
  split; [reflexivity|].
  assert (Hlen : List.length [TextParser.Digit; TextParser.Digit] <= 10)
    by (simpl; lia).
  destruct (Seq_atomicity [TextParser.Digit; TextParser.Digit] 0
              (TextParser.start "1a") Hlen)
    as (_ & _ & _ & _ & _ & Hsame & _).
  apply Hsame. repeat constructor; apply TextParser_restorable.
Defined.

Lemma Or_ordered_choice_witness :
  Or_of [TextParser.Literal "a"; TextParser.Digit; Finao False_T] 0
    (TextParser.start "1") =
  Ret true (TextParser.mkCursor "1" 1 [] []).
Proof.
  assert (Hlen : List.length
            [TextParser.Literal "a"; TextParser.Digit; Finao False_T] <= 10)
    by (simpl; lia).
  destruct (Or_ordered_choice
              [TextParser.Literal "a"; TextParser.Digit; Finao False_T] 0
              (TextParser.start "1") Hlen)
    as (_ & _ & Hfirst & _).
  assert (Hpre : Forall (fails_at 0 (TextParser.start "1"))
                   [TextParser.Literal "a"])
    by (repeat constructor).
  destruct (Hfirst [TextParser.Literal "a"] TextParser.Digit
              [Finao False_T] (TextParser.mkCursor "1" 1 [] [])
              eq_refl Hpre eq_refl)
    as [H _].
  exact H.
Defined.

Lemma UntilPast_end_of_input_witness :
  UntilPast EndOfInput_T 2 (TextParser.start "ab") =
    Ret false (TextParser.start "ab") /\
  UntilPast TextParser.Digit 1 (TextParser.start "") = Undefined.
Proof.
  destruct (UntilPast_end_of_input (PL := TextParser_laws)
              (FI := TextParser_finite))
    as (_ & _ & Hfalse & _ & Hundef).
  split.
  - apply Hfalse; [reflexivity | vm_compute; lia].
  - apply (Hundef TextParser.Digit 0 (TextParser.start "")
             (TextParser.start "")); reflexivity.
Defined.

(** ** The scenarios of the node tree *)

(** [Seq<Store<L1, Plus<Digit>>, EndOfInput_T>] against "123": one completed
    node [L1] spanning the three digits, cursor at the end. *)
Example digits_stored (n : nat) :
  2 < n ->
  Seq2 (Store 1 (Plus TextParser.Digit)) EndOfInput_T n
    (TextParser.start "123") =
  Ret true (TextParser.mkCursor "123" 3 [TextParser.mkNode 1 0 3 []] []).
Proof.
  intros Hn. do 3 (destruct n as [|n]; [lia|]). reflexivity.
Qed.

(** The same rule against "12a": failure, the parser as at entry, no node. *)
Example digits_abandoned (n : nat) :
  1 < n ->
  Seq2 (Store 1 (Plus TextParser.Digit)) EndOfInput_T n
    (TextParser.start "12a") =
  Ret false (TextParser.start "12a").
Proof.
  intros Hn. do 2 (destruct n as [|n]; [lia|]). reflexivity.
Qed.

(** Nodes completed inside an open node become its children, in order. *)
Example nested_nodes (n : nat) :
  Store 1 (Seq2 (Store 2 TextParser.Digit) (Store 3 TextParser.Digit)) n
    (TextParser.start "12") =
  Ret true
    (TextParser.mkCursor "12" 2
       [TextParser.mkNode 1 0 2
          [TextParser.mkNode 2 0 1 []; TextParser.mkNode 3 1 2 []]] []).
Proof. reflexivity. Qed.

(** An exception from inside two open nodes: both are abandoned on the way
    up, and the node completed before the exception goes with its parent. *)
Example nested_escalation (n : nat) :
  Store 1 (Seq2 (Store 2 TextParser.Digit) (StoreFinao 3 TextParser.Digit)) n
    (TextParser.start "1x") =
  Throw (TextParser.mkCursor "1x" 1 [] []).
Proof. reflexivity. Qed.

(** Greedy repetition: after [Star<Digit>] took both digits of "12" the
    following [Digit] fails and so does the sequence, although one
    repetition fewer would have let it match. *)
Example no_backtracking (n : nat) :
  2 < n ->
  Seq2 (Star TextParser.Digit) TextParser.Digit n (TextParser.start "12") =
    Ret false (TextParser.start "12") /\
  Seq2 TextParser.Digit TextParser.Digit n (TextParser.start "12") =
    Ret true (TextParser.mkCursor "12" 2 [] []).
Proof.
  intros Hn. do 3 (destruct n as [|n]; [lia|]). split; reflexivity.
Qed.

(** * Further properties of the rules *)

(** ** [Plus], [Opt] and [Repeat] *)

Section OneOrMore.

Context {P : Type} {PS : ParserState P}.

Implicit Types (R T : Rule P) (n k j : nat) (p q : P).

Lemma Plus_andalso R n p : Plus R n p = andalso R (Star R) n p.
Proof.
  unfold Plus, andalso. case_Match R n p; try reflexivity.
  destruct (Star R n q) as [b q'| q'| |] eqn:ES; try reflexivity.
  now rewrite (Star_true R n q b q' ES).
Qed.

Lemma Plus_false_iff R n p p' :
  Plus R n p = Ret false p' <-> R n p = Ret false p'.
Proof.
  unfold Plus. case_Match R n p; split; intros H; try discriminate; auto.
  destruct (Star R n q) as [b q'| q'| |]; discriminate.
Qed.

Lemma Plus_true_iff R n p p' :
  Plus R n p = Ret true p' <->
  exists q, R n p = Ret true q /\ Star R n q = Ret true p'.
Proof.
  rewrite Plus_andalso. unfold andalso. case_Match R n p; split.
  - eauto.
  - intros (q' & E' & H). now inversion E'.
  - discriminate.
  - intros (q' & E' & H). discriminate.
  - discriminate.
  - intros (q' & E' & H). discriminate.
  - discriminate.
  - intros (q' & E' & H). discriminate.
  - discriminate.
  - intros (q' & E' & H). discriminate.
Qed.

Lemma repeat_Match_S R n j p q :
  R n p = Ret true q -> repeat_Match R n (S j) p = repeat_Match R n j q.
Proof. intros H. simpl. now rewrite H. Qed.

(** The parser [Plus] leaves is the one after the largest number of
    successful matches in a row, and that number is at least one. *)
Lemma Plus_maximal R n p p' :
  Plus R n p = Ret true p' ->
  exists j q,
    1 <= j /\ repeat_Match R n j p = Some q /\
    ((j = 1 /\ AtEnd q = true /\ p' = q) \/
     (R n q = Ret false p' /\
      forall i, j < i -> repeat_Match R n i p = None)).
Proof.
  intros H. apply Plus_true_iff in H. destruct H as (q1 & H1 & HS).
  destruct (AtEnd q1) eqn:Hend.
  - rewrite (Star_at_end R n q1 Hend) in HS. inversion HS; subst.
    exists 1, p'. simpl. rewrite H1. repeat split; auto.
  - destruct (Star_maximal R n q1 p' Hend HS) as (j & q & Hrep & Hq & Hmax).
    exists (S j), q. rewrite (repeat_Match_S R n j p q1 H1).
    split; [lia|]. split; [assumption|]. right. split; [assumption|].
    intros i Hi. destruct i as [|i]; [lia|].
    rewrite (repeat_Match_S R n i p q1 H1). apply Hmax. lia.
Qed.

Lemma Plus_halts (remaining : P -> nat) R :
  monotone R -> halts R -> consumes remaining R ->
  forall p, exists n0 o, o <> OutOfFuel /\
    forall n, n0 <= n -> Plus R n p = o.
Proof.
  intros Hmono Hhalts Hcons p.
  destruct (Hhalts p) as [n1 Hn1].
  assert (Hfix : forall n, n1 <= n -> R n p = R n1 p)
    by (intros n Hn; now apply Hmono).
  destruct (R n1 p) as [[|] q| q| |] eqn:E.
  - destruct (Star_halts remaining R Hmono Hhalts Hcons q)
      as (n2 & o & Ho & HS).
    exists (Nat.max n1 n2),
      (match o with Ret _ p'' => Ret true p'' | o' => o' end).
    split; [destruct o; congruence|].
    intros n Hn. unfold Plus. rewrite Hfix, HS by lia.
    destruct o; reflexivity.
  - exists n1, (Ret false q). split; [discriminate|].
    intros n Hn. unfold Plus. now rewrite Hfix.
  - exists n1, (Throw q). split; [discriminate|].
    intros n Hn. unfold Plus. now rewrite Hfix.
  - exists n1, Undefined. split; [discriminate|].
    intros n Hn. unfold Plus. now rewrite Hfix.
  - congruence.
Qed.

(** X2 ([Plus], greedy and ending).  For a rule [R] that ends on every
    parser, whose result does not change with more fuel and whose every
    successful match consumes input, [Plus<R>] ends on every parser.  When
    it returns true the parser is the one after the largest number of
    successful matches of [R] in a row, at least one: either the first
    match reached the end of the input, or the loop stopped at the first
    failure of [R]. *)
Theorem Plus_greedy (remaining : P -> nat) R :
  monotone R -> halts R -> consumes remaining R ->
  forall p,
    (exists n0 o, o <> OutOfFuel /\ forall n, n0 <= n -> Plus R n p = o) /\
    (forall n p',
       Plus R n p = Ret true p' ->
       exists j q,
         1 <= j /\ repeat_Match R n j p = Some q /\
         ((j = 1 /\ AtEnd q = true /\ p' = q) \/
          (R n q = Ret false p' /\
           forall i, j < i -> repeat_Match R n i p = None))).
Proof.
  intros Hmono Hhalts Hcons p. split.
  - now apply (Plus_halts remaining).
  - intros n p'. apply Plus_maximal.
Qed.

Context {PL : ParserLaws PS}.

Lemma Plus_Seq2 R n p :
  restores_position R -> Plus R n p = Seq2 R (Star R) n p.
Proof.
  intros HR. rewrite Plus_andalso, Seq2_in_order. unfold andalso. simpl.
  case_Match R n p; simpl; try reflexivity.
  - destruct (Star R n q) as [b q'| q'| |] eqn:ES; try reflexivity.
    now rewrite (Star_true R n q b q' ES).
  - apply HR in E. rewrite <- E. now rewrite SetPos_GetPos.
Qed.

(** X1 ([Plus] is one match and then [Star]).  [Plus<R>] returns false
    exactly when the first match of [R] does, leaving the parser as that
    match left it, and it runs [R] even at the end of the input, where
    [Star<R>] would not.  It returns true exactly when [R] returns true
    and [Star<R>] then returns from where [R] stopped.  For a rule [R]
    that leaves the position in place when it fails, [Plus<R>] has the
    outcome of [Seq<R, Star<R>>] on every parser. *)
Theorem Plus_one_or_more R n p :
  (forall p', Plus R n p = Ret false p' <-> R n p = Ret false p') /\
  (forall p',
     Plus R n p = Ret true p' <->
     exists q, R n p = Ret true q /\ Star R n q = Ret true p') /\
  (forall q, AtEnd p = true -> R n p = Ret true q -> AtEnd q = true ->
             Plus R n p = Ret true q /\ Star R n p = Ret true p) /\
  (restores_position R -> Plus R n p = Seq2 R (Star R) n p).
Proof.
  split; [|split; [|split]].
  - intros p'. apply Plus_false_iff.
  - intros p'. apply Plus_true_iff.
  - intros q Hp HR Hq. split; [|now apply Star_at_end].
    apply Plus_true_iff. exists q. split; [assumption|].
    now apply Star_at_end.
  - apply Plus_Seq2.
Qed.

End OneOrMore.

Section OptionalAndExact.

Context {P : Type} {PS : ParserState P}.

Implicit Types (R T : Rule P) (n k j N M : nat) (p q : P).

(** X3 ([Opt]).  [Opt<R>] never returns false.  At the end of the input it
    returns true at once and does not run [R]; everywhere else it has the
    outcome of [Or<R, True_T>]. *)
Theorem Opt_optional R n p :
  (forall b p', Opt R n p = Ret b p' -> b = true) /\
  (AtEnd p = true -> Opt R n p = Ret true p) /\
  (AtEnd p = false -> Opt R n p = Or2 R True_T n p).
Proof.
  unfold Opt. split; [|split].
  - intros b p' H. destruct (AtEnd p); [now inversion H|].
    case_Match R n p; now inversion H.
  - intros Hp. now rewrite Hp.
  - intros Hp. rewrite Hp, Or2_first_of. simpl.
    case_Match R n p; reflexivity.
Qed.

Lemma Repeat_loop_in_order R pos N n p :
  Repeat_loop R pos N n p = Seq_result pos (in_order (repeat R N) n p).
Proof.
  revert p. induction N as [|N IH]; intros p; simpl; [reflexivity|].
  case_Match R n p; auto.
Qed.

Lemma in_order_repeat_true R N n p p' :
  in_order (repeat R N) n p = Ret true p' <->
  repeat_Match R n N p = Some p'.
Proof.
  revert p. induction N as [|N IH]; intros p; simpl.
  - split; intros H; inversion H; reflexivity.
  - case_Match R n p; try (split; discriminate). apply IH.
Qed.

Lemma in_order_repeat_false R N n p q' :
  in_order (repeat R N) n p = Ret false q' ->
  exists j q,
    j < N /\ repeat_Match R n j p = Some q /\ R n q = Ret false q'.
Proof.
  revert p. induction N as [|N IH]; intros p H; simpl in H.
  - discriminate.
  - case_Match R n p; try discriminate.
    + destruct (IH _ H) as (j & q0 & Hj & Hrep & Hq).
      exists (S j), q0. simpl. rewrite E. repeat split; auto. lia.
    + inversion H; subst. exists 0, p. simpl. repeat split; auto. lia.
Qed.

Lemma repeat_Match_add R n N M p :
  repeat_Match R n (N + M) p =
  match repeat_Match R n N p with
  | Some q => repeat_Match R n M q
  | None => None
  end.
Proof.
  revert p. induction N as [|N IH]; intros p; simpl; [reflexivity|].
  case_Match R n p; auto.
Qed.

Lemma Repeat_true_iff R N n p p' :
  Repeat R N n p = Ret true p' <-> repeat_Match R n N p = Some p'.
Proof.
  unfold Repeat. rewrite Repeat_loop_in_order, <- in_order_repeat_true.
  destruct (in_order (repeat R N) n p) as [[|] q| q| |]; simpl;
    split; intros H; try discriminate; assumption.
Qed.

Context {PL : ParserLaws PS}.

(** X4 ([Repeat]).  [Repeat<R, N>] is the sequence of [N] copies of [R]:
    it has the outcome of [Seq<R, ..., R>] for [N] up to ten, and the same
    reading for larger [N].  It returns true exactly when [R] matches [N]
    times in a row, each time from where the previous match stopped, so
    [Repeat<R, 0>] returns true without running [R] and [Repeat<R, N + M>]
    succeeds exactly when [Repeat<R, N>] and then [Repeat<R, M>] do.  When
    it returns false, [R] failed after fewer than [N] matches and the
    position is the one at entry. *)
Theorem Repeat_exactly R N n p :
  Repeat R N n p = Seq_result (GetPos p) (in_order (repeat R N) n p) /\
  (N <= 10 -> Repeat R N n p = Seq_of (repeat R N) n p) /\
  (forall p', Repeat R N n p = Ret true p' <->
              repeat_Match R n N p = Some p') /\
  (forall p',
     Repeat R N n p = Ret false p' ->
     GetPos p' = GetPos p /\
     exists j q q',
       j < N /\ repeat_Match R n j p = Some q /\ R n q = Ret false q' /\
       p' = SetPos (GetPos p) q') /\
  (forall M p',
     Repeat R (N + M) n p = Ret true p' <->
     exists q, Repeat R N n p = Ret true q /\ Repeat R M n q = Ret true p').
Proof.
  assert (Heq : Repeat R N n p =
                Seq_result (GetPos p) (in_order (repeat R N) n p))
    by apply Repeat_loop_in_order.
  split; [exact Heq|]. split; [|split; [|split]].
  - intros HN. rewrite Heq. symmetry. apply Seq_of_in_order.
    now rewrite repeat_length.
  - intros p'. apply Repeat_true_iff.
  - intros p' H. rewrite Heq in H.
    destruct (in_order (repeat R N) n p) as [[|] q'| q'| |] eqn:E;
      simpl in H; inversion H; subst.
    split; [apply GetPos_SetPos|].
    destruct (in_order_repeat_false R N n p q' E) as (j & q & Hj & Hrep & Hq).
    exists j, q, q'. auto.
  - intros M p'. split.
    + intros H. apply Repeat_true_iff in H. rewrite repeat_Match_add in H.
      destruct (repeat_Match R n N p) as [q|] eqn:EN; [|discriminate].
      exists q. split; now apply Repeat_true_iff.
    + intros (q & HN & HM). apply Repeat_true_iff in HN, HM.
      apply Repeat_true_iff. now rewrite repeat_Match_add, HN.
Qed.

End OptionalAndExact.

(** ** [UntilPast] and [UntilAt]: where the scan stops *)

Section Scan.

Context {P : Type} {PS : ParserState P}.

Implicit Types (R : Rule P) (n k j : nat) (p q : P).

Lemma skips_S R n p j :
  R n p = Ret false p -> AtEnd p = false -> AtEnd (GotoNext p) = false ->
  skips R n (GotoNext p) j -> skips R n p (S j).
Proof.
  intros HR Hp Hq Hs i Hi. destruct i as [|i].
  - simpl. auto.
  - apply (Hs i). lia.
Qed.

Lemma UntilPast_loop_true_inv R pos n k p p' :
  transparent R ->
  UntilPast_loop R pos n k p = Ret true p' ->
  exists j, j < k /\ skips R n p j /\ R n (advance j p) = Ret true p'.
Proof.
  intros HR. revert p.
  induction k as [|k IH]; intros p H; simpl in H; [discriminate|].
  case_Match R n p; try discriminate.
  - inversion H; subst. exists 0. split; [lia|]. split; [|exact E].
    intros i Hi. lia.
  - pose proof (HR _ _ _ E); subst q.
    unfold call_GotoNext in H.
    destruct (AtEnd p) eqn:Hp; [discriminate|].
    destruct (AtEnd (GotoNext p)) eqn:Hq; [discriminate|].
    destruct (IH _ H) as (j & Hj & Hs & Hm).
    exists (S j). split; [lia|]. split; [|exact Hm].
    now apply skips_S.
Qed.

Lemma UntilPast_loop_false_inv R pos n k p p' :
  transparent R ->
  UntilPast_loop R pos n k p = Ret false p' ->
  exists j,
    j < k /\ skips R n p j /\
    R n (advance j p) = Ret false (advance j p) /\
    AtEnd (advance j p) = false /\ AtEnd (advance (S j) p) = true /\
    p' = SetPos pos (advance (S j) p).
Proof.
  intros HR. revert p.
  induction k as [|k IH]; intros p H; simpl in H; [discriminate|].
  case_Match R n p; try discriminate.
  pose proof (HR _ _ _ E); subst q.
  unfold call_GotoNext in H.
  destruct (AtEnd p) eqn:Hp; [discriminate|].
  destruct (AtEnd (GotoNext p)) eqn:Hq.
  - inversion H; subst. exists 0. split; [lia|]. split.
    + intros i Hi. lia.
    + simpl. auto.
  - destruct (IH _ H) as (j & Hj & Hs & HRj & Hej & Hend & Hp').
    exists (S j). split; [lia|]. split; [now apply skips_S|].
    simpl. auto.
Qed.

Lemma UntilPast_true_scan R n p p' :
  transparent R ->
  (UntilPast R n p = Ret true p' <->
   exists j, j < n /\ skips R n p j /\ R n (advance j p) = Ret true p').
Proof.
  intros HR. split.
  - apply UntilPast_loop_true_inv, HR.
  - intros (j & Hj & Hs & Hm). now apply (UntilPast_found R n j).
Qed.

Context {PL : ParserLaws PS}.

(** X5 ([UntilPast] finds the first match).  For a transparent rule [R],
    [UntilPast<R>] returns true exactly when there is a first parser,
    reached from the entry by advancing one unit at a time without meeting
    the end, on which [R] matches, [R] having failed on all the earlier
    ones; the parser it leaves is the one that match left.  It returns
    false exactly when [R] failed on every parser up to the last one before
    the end, and the parser is then the one at entry. *)
Theorem UntilPast_scans R :
  transparent R ->
  forall n p p',
    (UntilPast R n p = Ret true p' <->
     exists j, j < n /\ skips R n p j /\ R n (advance j p) = Ret true p') /\
    (UntilPast R n p = Ret false p' <->
     p' = p /\
     exists j,
       j < n /\ skips R n p j /\
       R n (advance j p) = Ret false (advance j p) /\
       AtEnd (advance j p) = false /\ AtEnd (advance (S j) p) = true).
Proof.
  intros HR n p p'. split; [now apply UntilPast_true_scan|]. split.
  - intros H. unfold UntilPast in H.
    destruct (UntilPast_loop_false_inv R _ n n p p' HR H)
      as (j & Hj & Hs & HRj & Hej & Hend & Hp').
    split; [|exists j; auto].
    now rewrite Hp', SetPos_advance, SetPos_GetPos.
  - intros (-> & j & Hj & Hs & HRj & Hej & Hend).
    now apply (UntilPast_exhausted R n j).
Qed.

Lemma At_true_inv R n p p' :
  restorable R -> At R n p = Ret true p' ->
  p' = p /\ exists q, R n p = Ret true q.
Proof.
  intros HR H. unfold At in H. case_Match R n p; inversion H; subst.
  split; [eapply HR; eauto | eauto].
Qed.

Lemma At_false_inv R n p p' :
  At R n p = Ret false p' -> R n p = Ret false p'.
Proof.
  intros H. unfold At in H. case_Match R n p; inversion H; subst.
  reflexivity.
Qed.

Lemma skips_At R n p j : skips (At R) n p j -> skips R n p j.
Proof.
  intros Hs i Hi. destruct (Hs i Hi) as (HA & H1 & H2).
  repeat split; auto. now apply At_false_inv.
Qed.

Lemma At_skips R n p j : skips R n p j -> skips (At R) n p j.
Proof.
  intros Hs i Hi. destruct (Hs i Hi) as (HA & H1 & H2).
  repeat split; auto. unfold At. now rewrite HA.
Qed.

(** X8 ([UntilAt] stops in front of the match).  For a rule [R] that obeys
    the matching contract, [UntilAt<R>] returning true leaves the parser
    advanced from the entry by whole units up to the first parser on which
    [R] matches, and nothing of the match is consumed; and [UntilAt<R>]
    returns true exactly when [UntilPast<R>] does. *)
Theorem UntilAt_stops_at_match R :
  obeys R ->
  forall n p,
    (forall p',
       UntilAt R n p = Ret true p' ->
       exists j,
         j < n /\ p' = advance j p /\ skips R n p j /\
         exists q, R n p' = Ret true q /\ UntilPast R n p = Ret true q) /\
    ((exists p', UntilAt R n p = Ret true p') <->
     (exists q, UntilPast R n p = Ret true q)).
Proof.
  intros [Htr Hres] n p.
  assert (HAt : transparent (At R)) by now apply transparent_At.
  assert (Hinv : forall p',
    UntilAt R n p = Ret true p' ->
    exists j,
      j < n /\ p' = advance j p /\ skips R n p j /\
      exists q, R n p' = Ret true q /\ UntilPast R n p = Ret true q).
  { intros p' H. apply (UntilPast_true_scan (At R) n p p' HAt) in H.
    destruct H as (j & Hj & Hs & Hm).
    destruct (At_true_inv R n _ p' Hres Hm) as [-> [q Hq]].
    pose proof (skips_At R n p j Hs) as Hs'.
    exists j. split; [assumption|]. split; [reflexivity|].
    split; [assumption|].
    exists q. split; [assumption|].
    apply (UntilPast_true_scan R n p q Htr). exists j. auto. }
  split; [exact Hinv|]. split.
  - intros [p' H]. destruct (Hinv p' H) as (j & _ & _ & _ & q & _ & Hq).
    eauto.
  - intros [q H]. apply (UntilPast_true_scan R n p q Htr) in H.
    destruct H as (j & Hj & Hs & Hm).
    exists (SetPos (GetPos (advance j p)) q).
    apply (UntilPast_true_scan (At R) n p _ HAt). exists j.
    split; [assumption|]. split; [now apply At_skips|].
    unfold At. now rewrite Hm.
Qed.

End Scan.

(** ** [UntilPast] on a finite input *)

Section ScanEnds.

Context {P : Type} {PS : ParserState P} {FI : FiniteInput PS}.

Implicit Types (R : Rule P) (n k j : nat) (p q : P).

Lemma UntilPast_loop_halts R pos :
  monotone R -> halts R -> transparent R ->
  forall p, exists n0 o, o <> OutOfFuel /\
    forall n k, n0 <= n -> n0 <= k -> UntilPast_loop R pos n k p = o.
Proof.
  intros Hmono Hhalts Htr p.
  remember (units_left p) as m eqn:Hm. revert p Hm.
  induction m as [m IH] using lt_wf_ind. intros p Hm.
  destruct (Hhalts p) as [n1 Hn1].
  assert (Hfix : forall n, n1 <= n -> R n p = R n1 p)
    by (intros n Hn; now apply Hmono).
  destruct (R n1 p) as [[|] q| q| |] eqn:E.
  - exists (Nat.max n1 1), (Ret true q). split; [discriminate|].
    intros n k Hn Hk. destruct k as [|k]; [lia|]. simpl.
    rewrite Hfix by lia. reflexivity.
  - pose proof (Htr _ _ _ E); subst q.
    destruct (AtEnd p) eqn:Hp.
    + exists (Nat.max n1 1), Undefined. split; [discriminate|].
      intros n k Hn Hk. destruct k as [|k]; [lia|]. simpl.
      rewrite Hfix by lia. unfold call_GotoNext. now rewrite Hp.
    + destruct (AtEnd (GotoNext p)) eqn:Hq.
      * exists (Nat.max n1 1), (Ret false (SetPos pos (GotoNext p))).
        split; [discriminate|].
        intros n k Hn Hk. destruct k as [|k]; [lia|]. simpl.
        rewrite Hfix by lia. unfold call_GotoNext. now rewrite Hp, Hq.
      * pose proof (units_left_GotoNext p Hp) as Hleft.
        destruct (IH (units_left (GotoNext p))) with (p := GotoNext p)
          as (n2 & o & Ho & Hloop); [lia | reflexivity |].
        exists (Nat.max n1 (S n2)), o. split; [assumption|].
        intros n k Hn Hk. destruct k as [|k]; [lia|]. simpl.
        rewrite Hfix by lia. unfold call_GotoNext. rewrite Hp, Hq.
        apply Hloop; lia.
  - exists (Nat.max n1 1), (Throw q). split; [discriminate|].
    intros n k Hn Hk. destruct k as [|k]; [lia|]. simpl.
    rewrite Hfix by lia. reflexivity.
  - exists (Nat.max n1 1), Undefined. split; [discriminate|].
    intros n k Hn Hk. destruct k as [|k]; [lia|]. simpl.
    rewrite Hfix by lia. reflexivity.
  - congruence.
Qed.

(** One attempt for each unit left, and one more. *)
Lemma UntilPast_loop_linear R pos n k p :
  transparent R -> fuel_free R ->
  units_left p < k -> UntilPast_loop R pos n k p <> OutOfFuel.
Proof.
  intros Htr Hfree. revert p.
  induction k as [|k IH]; intros p Hk; [lia|]. simpl.
  case_Match R n p; try discriminate.
  - pose proof (Htr _ _ _ E); subst q.
    unfold call_GotoNext. destruct (AtEnd p) eqn:Hp; [discriminate|].
    destruct (AtEnd (GotoNext p)); [discriminate|].
    apply IH. pose proof (units_left_GotoNext p Hp). lia.
  - now apply Hfree in E.
Qed.

(** X6 ([UntilPast] ends, in linear time).  On a finite input, for a
    transparent rule [R] that ends on every parser and whose result does
    not change with more fuel, [UntilPast<R>] ends on every parser.  When
    [R] has no loop of its own, the loop of [UntilPast<R>] runs [R] at most
    once for each input unit left at entry, and once more. *)
Theorem UntilPast_halts R :
  monotone R -> halts R -> transparent R ->
  forall p,
    (exists n0 o, o <> OutOfFuel /\
       forall n, n0 <= n -> UntilPast R n p = o) /\
    (fuel_free R ->
     forall n, units_left p < n -> UntilPast R n p <> OutOfFuel).
Proof.
  intros Hmono Hhalts Htr p. split.
  - destruct (UntilPast_loop_halts R (GetPos p) Hmono Hhalts Htr p)
      as (n0 & o & Ho & Hloop).
    exists n0, o. split; [assumption|].
    intros n Hn. unfold UntilPast. now apply Hloop.
  - intros Hfree n Hn. unfold UntilPast.
    now apply UntilPast_loop_linear.
Qed.

End ScanEnds.

(** ** Where exceptions and undefined calls come from

    [Finao] is the only rule with a [throw], [Store] the only one with a
    [catch], and [UntilPast] the only one that calls [GotoNext]. *)

Section Endings.

Context {P : Type} {PS : ParserState P}.

Implicit Types (R A B : Rule P) (rs : list (Rule P)) (n k : nat) (p q : P)
  (e : Ending).

Lemma never_True_T e : e <> Returned -> never e (True_T (P := P)).
Proof. intros He n p. simpl. congruence. Qed.

Lemma never_False_T e : e <> Returned -> never e (False_T (P := P)).
Proof. intros He n p. simpl. congruence. Qed.

Lemma never_EndOfInput_T e :
  e <> Returned -> never e (EndOfInput_T (P := P)).
Proof. intros He n p. simpl. congruence. Qed.

Lemma never_Store e id R :
  e <> Returned -> never e R -> never e (Store id R).
Proof.
  intros He HR n p. unfold Store.
  pose proof (HR n (StartNode id p)) as H.
  destruct (R n (StartNode id p)) as [[|] q| q| |]; simpl in *; congruence.
Qed.


Lemma never_At e R : e <> Returned -> never e R -> never e (At R).
Proof.
  intros He HR n p. unfold At.
  pose proof (HR n p) as H.
  destruct (R n p) as [[|] q| q| |]; simpl in *; congruence.
Qed.

Lemma never_NotAt e R : e <> Returned -> never e R -> never e (NotAt R).
Proof.
  intros He HR n p. unfold NotAt.
  pose proof (HR n p) as H.
  destruct (R n p) as [[|] q| q| |]; simpl in *; congruence.
Qed.

Lemma never_first_of e rs :
  e <> Returned -> Forall (never e) rs -> never e (first_of rs).
Proof.
  intros He. induction 1 as [|R rs HR _ IH]; intros n p; simpl.
  - congruence.
  - pose proof (HR n p) as H.
    destruct (R n p) as [[|] q| q| |]; simpl in *; try congruence;
      apply IH.
Qed.

Lemma never_in_order e rs :
  e <> Returned -> Forall (never e) rs -> never e (in_order rs).
Proof.
  intros He. induction 1 as [|R rs HR _ IH]; intros n p; simpl.
  - congruence.
  - pose proof (HR n p) as H.
    destruct (R n p) as [[|] q| q| |]; simpl in *; try congruence;
      apply IH.
Qed.

Lemma never_Or e (T0 T1 T2 T3 T4 T5 T6 T7 T8 T9 : Rule P) :
  e <> Returned ->
  Forall (never e) [T0; T1; T2; T3; T4; T5; T6; T7; T8; T9] ->
  never e (Or T0 T1 T2 T3 T4 T5 T6 T7 T8 T9).
Proof.
  intros He H n p. rewrite Or_first_of. now apply never_first_of.
Qed.

Lemma never_Seq e (T0 T1 T2 T3 T4 T5 T6 T7 T8 T9 : Rule P) :
  e <> Returned ->
  Forall (never e) [T0; T1; T2; T3; T4; T5; T6; T7; T8; T9] ->
  never e (Seq T0 T1 T2 T3 T4 T5 T6 T7 T8 T9).
Proof.
  intros He H n p. unfold Seq. rewrite Seq_chain_in_order.
  pose proof (never_in_order e _ He H n p) as HI.
  destruct (in_order _ n p) as [[|] q| q| |]; simpl in *; congruence.
Qed.

Lemma never_while_Match e R n k p :
  e <> Returned -> e <> Starved -> never e R ->
  ending (while_Match R n k p) <> e.
Proof.
  intros He He' HR. revert p.
  induction k as [|k IH]; intros p; simpl; [congruence|].
  pose proof (HR n p) as H.
  destruct (R n p) as [[|] q| q| |]; simpl in *; try congruence;
    apply IH.
Qed.

Lemma never_Star e R :
  e <> Returned -> e <> Starved -> never e R -> never e (Star R).
Proof.
  intros He He' HR n p. unfold Star. destruct (AtEnd p).
  - simpl. congruence.
  - now apply never_while_Match.
Qed.

Lemma never_Plus e R :
  e <> Returned -> e <> Starved -> never e R -> never e (Plus R).
Proof.
  intros He He' HR n p. unfold Plus.
  pose proof (HR n p) as H.
  destruct (R n p) as [[|] q| q| |]; simpl in *; try congruence.
  pose proof (never_Star e R He He' HR n q) as HS.
  destruct (Star R n q) as [b q'| q'| |]; simpl in *; congruence.
Qed.

Lemma never_Opt e R : e <> Returned -> never e R -> never e (Opt R).
Proof.
  intros He HR n p. unfold Opt. destruct (AtEnd p).
  - simpl. congruence.
  - pose proof (HR n p) as H.
    destruct (R n p) as [[|] q| q| |]; simpl in *; congruence.
Qed.

Lemma never_Repeat e R N :
  e <> Returned -> never e R -> never e (Repeat R N).
Proof.
  intros He HR n p. unfold Repeat. generalize (GetPos p) as pos. intros pos.
  revert p. induction N as [|N IH]; intros p; simpl; [congruence|].
  pose proof (HR n p) as H.
  destruct (R n p) as [[|] q| q| |]; simpl in *; try congruence;
    apply IH.
Qed.

Lemma never_UntilPast_loop e R pos n k p :
  e <> Returned -> e <> Starved -> e <> Undefd -> never e R ->
  ending (UntilPast_loop R pos n k p) <> e.
Proof.
  intros He He' He'' HR. revert p.
  induction k as [|k IH]; intros p; simpl; [congruence|].
  pose proof (HR n p) as H.
  destruct (R n p) as [[|] q| q| |]; simpl in *; try congruence.
  unfold call_GotoNext. destruct (AtEnd q); [simpl; congruence|].
  destruct (AtEnd (GotoNext q)); [simpl; congruence|]. apply IH.
Qed.

Lemma never_UntilPast e R :
  e <> Returned -> e <> Starved -> e <> Undefd ->
  never e R -> never e (UntilPast R).
Proof.
  intros He He' He'' HR n p. unfold UntilPast.
  now apply never_UntilPast_loop.
Qed.


(** X12 (only [Finao] throws).  When no exception leaves the sub-rules,
    none leaves any rule built from them with [Store], [At], [NotAt], [Or],
    [Seq], [Star], [Plus], [Opt], [Repeat], [UntilPast] or [UntilAt], nor
    the sentinels: a grammar written without [Finao] never throws. *)
Theorem only_Finao_throws
  (id : Z) (N : nat) (R T0 T1 T2 T3 T4 T5 T6 T7 T8 T9 : Rule P) :
  no_throw R ->
  Forall no_throw [T0; T1; T2; T3; T4; T5; T6; T7; T8; T9] ->
  no_throw (True_T (P := P)) /\
  no_throw (False_T (P := P)) /\
  no_throw (EndOfInput_T (P := P)) /\
  no_throw (Store id R) /\
  no_throw (At R) /\
  no_throw (NotAt R) /\
  no_throw (Or T0 T1 T2 T3 T4 T5 T6 T7 T8 T9) /\
  no_throw (Seq T0 T1 T2 T3 T4 T5 T6 T7 T8 T9) /\
  no_throw (Star R) /\
  no_throw (Plus R) /\
  no_throw (Opt R) /\
  no_throw (Repeat R N) /\
  no_throw (UntilPast R) /\
  no_throw (UntilAt R).
Proof.
  unfold no_throw. intros HR HT.
  assert (H1 : Thrown <> Returned) by discriminate.
  assert (H2 : Thrown <> Starved) by discriminate.
  assert (H3 : Thrown <> Undefd) by discriminate.
  repeat apply conj.
  - now apply never_True_T.
  - now apply never_False_T.
  - now apply never_EndOfInput_T.
  - now apply never_Store.
  - now apply never_At.
  - now apply never_NotAt.
  - now apply never_Or.
  - now apply never_Seq.
  - now apply never_Star.
  - now apply never_Plus.
  - now apply never_Opt.
  - now apply never_Repeat.
  - now apply never_UntilPast.
  - apply never_UntilPast; auto. now apply never_At.
Qed.



End Endings.

(** ** The shorthands, nesting and lookahead *)

Section Shorthands.

Context {P : Type} {PS : ParserState P} {PL : ParserLaws PS}.

Implicit Types (R T U A B C : Rule P) (rs : list (Rule P)) (n : nat)
  (p q : P).

(** X9 ([StoreFinao]).  [StoreFinao<Label, R>] never returns false: it
    returns true with the node completed when [R] matches, and throws when
    [R] fails.  For a transparent [R] the parser at the throw is exactly
    the one at entry: the node is gone and nothing was consumed. *)
Theorem StoreFinao_all_or_nothing id R n p :
  (forall p', StoreFinao id R n p <> Ret false p') /\
  (forall q, R n (StartNode id p) = Ret true q ->
             StoreFinao id R n p = Ret true (CompleteNode id q)) /\
  (transparent R ->
   forall q, R n (StartNode id p) = Ret false q ->
             StoreFinao id R n p = Throw p).
Proof.
  unfold StoreFinao, Store, Finao. split; [|split].
  - intros p'. case_Match R n (StartNode id p); discriminate.
  - intros q E. now rewrite E.
  - intros HR q E. rewrite E. apply HR in E. subst q.
    now rewrite AbandonNode_StartNode.
Qed.

Lemma Seq2_after_guard T U n p p1 :
  T n p = Ret true p1 -> never_fails U ->
  Seq2 T U n p = U n p1.
Proof.
  intros HT HU. rewrite Seq2_in_order. simpl. rewrite HT.
  destruct (U n p1) as [[|] q| q| |] eqn:E; try reflexivity.
  exfalso. exact (HU n p1 q E).
Qed.

Lemma Seq2_false_guard T U n p p' :
  never_fails U -> Seq2 T U n p = Ret false p' ->
  exists q, T n p = Ret false q /\ p' = SetPos (GetPos p) q.
Proof.
  intros HU H. rewrite Seq2_in_order in H. simpl in H.
  case_Match T n p; simpl in H; try discriminate.
  - destruct (U n q) as [[|] q'| q'| |] eqn:EU; simpl in H;
      try discriminate.
    exfalso. exact (HU n q q' EU).
  - inversion H; subst. eauto.
Qed.

Lemma never_fails_Finao R : never_fails (Finao R).
Proof. intros n p p'. apply Finao_never_false. Qed.

Lemma never_fails_StoreFinao id R : never_fails (StoreFinao id R).
Proof.
  intros n p p'. unfold StoreFinao, Store, Finao.
  case_Match R n (StartNode id p); discriminate.
Qed.

(** X10 (commit point).  [FinaoIf<T, U>] and [StoreIf<Label, T, U>] return
    false only when the guard [T] does, and the position is then the one
    at entry (with a transparent guard the parser is the one at entry).
    Once the guard matched, the outcome is that of [Finao<U>], respectively
    [StoreFinao<Label, U>], run from where the guard stopped: a true
    return or an exception, never a step back over the guard, and the node
    of [StoreIf] starts after the guard. *)
Theorem commit_point id T U n p :
  (forall p',
     FinaoIf T U n p = Ret false p' \/ StoreIf id T U n p = Ret false p' ->
     GetPos p' = GetPos p /\
     exists q, T n p = Ret false q /\ p' = SetPos (GetPos p) q) /\
  (transparent T ->
   forall p',
     FinaoIf T U n p = Ret false p' \/ StoreIf id T U n p = Ret false p' ->
     p' = p) /\
  (forall p1,
     T n p = Ret true p1 ->
     FinaoIf T U n p = Finao U n p1 /\
     StoreIf id T U n p = StoreFinao id U n p1).
Proof.
  assert (Hinv : forall p',
    FinaoIf T U n p = Ret false p' \/ StoreIf id T U n p = Ret false p' ->
    exists q, T n p = Ret false q /\ p' = SetPos (GetPos p) q).
  { intros p' [H|H].
    - apply (Seq2_false_guard T (Finao U)); auto using never_fails_Finao.
    - apply (Seq2_false_guard T (StoreFinao id U));
        auto using never_fails_StoreFinao. }
  split; [|split].
  - intros p' H. destruct (Hinv p' H) as (q & HT & ->).
    split; [apply GetPos_SetPos | eauto].
  - intros HT p' H. destruct (Hinv p' H) as (q & Hq & ->).
    apply HT in Hq. subst q. apply SetPos_GetPos.
  - intros p1 HT. split.
    + apply Seq2_after_guard; auto using never_fails_Finao.
    + apply Seq2_after_guard; auto using never_fails_StoreFinao.
Qed.

(** X13 (lookahead algebra).  A lookahead of a lookahead is a lookahead:
    [At<At<R>>] is [At<R>] and [NotAt<At<R>>] is [NotAt<R>] on every
    parser; and for a rule [R] that leaves the position in place when it
    fails, [NotAt<NotAt<R>>] is [At<R>] and [At<NotAt<R>>] is [NotAt<R>]. *)
Theorem lookahead_algebra R n p :
  At (At R) n p = At R n p /\
  NotAt (At R) n p = NotAt R n p /\
  (restores_position R ->
   NotAt (NotAt R) n p = At R n p /\ At (NotAt R) n p = NotAt R n p).
Proof.
  split; [|split].
  - unfold At. case_Match R n p; try reflexivity.
    now rewrite SetPos_SetPos.
  - unfold NotAt, At. case_Match R n p; try reflexivity.
    now rewrite SetPos_SetPos.
  - intros HR. unfold NotAt, At.
    case_Match R n p; try (split; reflexivity).
    apply HR in E. rewrite <- E, SetPos_GetPos. split; reflexivity.
Qed.

Lemma Seq_result_idem (pos : Iterator) (o : Outcome P) :
  Seq_result pos (Seq_result pos o) = Seq_result pos o.
Proof.
  destruct o as [[|] q| q| |]; simpl; try reflexivity.
  now rewrite SetPos_SetPos.
Qed.

Lemma Seq2_Seq_of rs1 rs2 n p :
  List.length rs1 <= 10 -> List.length rs2 <= 10 ->
  Seq2 (Seq_of rs1) (Seq_of rs2) n p =
  Seq_result (GetPos p) (in_order (rs1 ++ rs2) n p).
Proof.
  intros H1 H2. rewrite Seq2_in_order, in_order_app. simpl.
  rewrite (Seq_of_in_order rs1 n p H1).
  destruct (in_order rs1 n p) as [[|] q| q| |]; simpl; try reflexivity.
  - rewrite (Seq_of_in_order rs2 n q H2).
    destruct (in_order rs2 n q) as [[|] q'| q'| |]; simpl; try reflexivity.
    now rewrite SetPos_SetPos.
  - now rewrite SetPos_SetPos.
Qed.

Lemma Or2_Or_of rs1 rs2 n p :
  List.length rs1 <= 10 -> List.length rs2 <= 10 ->
  Or2 (Or_of rs1) (Or_of rs2) n p = first_of (rs1 ++ rs2) n p.
Proof.
  intros H1 H2. rewrite Or2_first_of, first_of_app. simpl.
  rewrite (Or_of_first_of rs1 n p H1).
  destruct (first_of rs1 n p) as [[|] q| q| |]; try reflexivity.
  rewrite (Or_of_first_of rs2 n q H2).
  destruct (first_of rs2 n q) as [[|] q'| q'| |]; reflexivity.
Qed.

(** X14 (nesting).  A [Seq] of two [Seq]s is the sequence of all their
    rules, and an [Or] of two [Or]s the choice among all their
    alternatives, in order: nesting is how a grammar goes past the ten
    template arguments, and it changes nothing.  In particular both ways
    of nesting three rules agree with the flat rule. *)
Theorem nesting_is_flat rs1 rs2 n p :
  List.length rs1 <= 10 -> List.length rs2 <= 10 ->
  Seq2 (Seq_of rs1) (Seq_of rs2) n p =
    Seq_result (GetPos p) (in_order (rs1 ++ rs2) n p) /\
  Or2 (Or_of rs1) (Or_of rs2) n p = first_of (rs1 ++ rs2) n p /\
  (forall A B C,
     Seq2 (Seq2 A B) C n p = Seq_of [A; B; C] n p /\
     Seq2 A (Seq2 B C) n p = Seq_of [A; B; C] n p /\
     Or2 (Or2 A B) C n p = Or_of [A; B; C] n p /\
     Or2 A (Or2 B C) n p = Or_of [A; B; C] n p).
Proof.
  intros H1 H2. split; [now apply Seq2_Seq_of|].
  split; [now apply Or2_Or_of|].
  intros A B C.
  assert (L3 : List.length [A; B; C] <= 10) by (simpl; lia).
  rewrite (Seq_of_in_order [A; B; C] n p L3).
  rewrite (Or_of_first_of [A; B; C] n p L3).
  repeat apply conj.
  - rewrite Seq2_in_order. simpl. rewrite Seq2_in_order. simpl.
    repeat step_Match; simpl; rewrite ?SetPos_SetPos; reflexivity.
  - rewrite Seq2_in_order. simpl.
    case_Match A n p; simpl; try reflexivity.
    rewrite Seq2_in_order. simpl.
    repeat step_Match; simpl; rewrite ?SetPos_SetPos; reflexivity.
  - rewrite Or2_first_of. simpl. rewrite Or2_first_of. simpl.
    repeat step_Match; reflexivity.
  - rewrite Or2_first_of. simpl.
    case_Match A n p; try reflexivity.
    rewrite Or2_first_of. simpl.
    repeat step_Match; reflexivity.
Qed.

End Shorthands.

(** ** Nodes stay balanced; exceptions pass through *)

Section Propagation.

Context {P : Type} {PS : ParserState P}.

Implicit Types (R T U A : Rule P) (rs pre post : list (Rule P)) (n k j : nat)
  (p q : P).

Lemma while_Match_unfailing R n k p b p' :
  never_fails R -> while_Match R n k p <> Ret b p'.
Proof.
  intros HR. revert p.
  induction k as [|k IH]; intros p; simpl; [discriminate|].
  case_Match R n p; try discriminate.
  - apply IH.
  - exfalso. exact (HR n p q E).
Qed.

Lemma never_fails_Star R : never_fails (Star R).
Proof. intros n p p' H. apply Star_true in H. discriminate. Qed.

Lemma never_fails_Opt R : never_fails (Opt R).
Proof.
  intros n p p' H. unfold Opt in H. destruct (AtEnd p); [discriminate|].
  case_Match R n p; discriminate.
Qed.

(** X15 ([Star] over a rule that cannot fail).  [Star<R>], [Opt<R>] and
    [Finao<R>] never return false, nor does [True_T].  The loop of [Star]
    has no exit but a false return of its rule: over a rule that never
    returns false, [Star] entered before the end of the input never
    returns, so [Star<Star<R>>], [Star<Opt<R>>] and [Star<Finao<R>>] can
    end only by an exception. *)
Theorem Star_over_unfailing :
  (forall R, never_fails (Star R) /\ never_fails (Opt R) /\
             never_fails (Finao R)) /\
  never_fails (True_T (P := P)) /\
  (forall R,
     never_fails R ->
     forall n p b p', AtEnd p = false -> Star R n p <> Ret b p') /\
  (forall R n p b p',
     AtEnd p = false ->
     Star (Star R) n p <> Ret b p' /\
     Star (Opt R) n p <> Ret b p' /\
     Star (Finao R) n p <> Ret b p').
Proof.
  assert (Hloop : forall R, never_fails R ->
            forall n p b p', AtEnd p = false -> Star R n p <> Ret b p').
  { intros R HR n p b p' Hp. unfold Star. rewrite Hp.
    now apply while_Match_unfailing. }
  assert (HF : forall R, never_fails (Finao R)).
  { intros R n p p'. unfold Finao. case_Match R n p; discriminate. }
  split; [|split; [|split]].
  - intros R. auto using never_fails_Star, never_fails_Opt.
  - intros n p p'. discriminate.
  - exact Hloop.
  - intros R n p b p' Hp.
    auto using never_fails_Star, never_fails_Opt.
Qed.

Lemma repeat_Match_while R n j k p q :
  repeat_Match R n j p = Some q ->
  while_Match R n (j + k) p = while_Match R n k q.
Proof.
  revert p. induction j as [|j IH]; intros p H; simpl in *.
  - now inversion H.
  - case_Match R n p; try discriminate. now apply IH.
Qed.

(** X16 (exceptions pass through).  No rule but [Store] has a [catch].  An
    exception from the first rule of a [Seq] that does not return true,
    from the first alternative of an [Or] that does not return false, from
    any iteration of [Star], or from the rule under [At], [NotAt], [Opt]
    or [Plus], leaves the rule as it is, with the parser as it was at the
    [throw]: the later rules do not run and the saved position is not set
    back.  [Store] abandons its node and throws on. *)
Theorem exceptions_pass_through :
  (forall pre R post n p q q',
     List.length (pre ++ R :: post) <= 10 ->
     in_order pre n p = Ret true q -> R n q = Throw q' ->
     Seq_of (pre ++ R :: post) n p = Throw q') /\
  (forall pre R post n p q q',
     List.length (pre ++ R :: post) <= 10 ->
     first_of pre n p = Ret false q -> R n q = Throw q' ->
     Or_of (pre ++ R :: post) n p = Throw q') /\
  (forall R n j p q q',
     AtEnd p = false -> j < n ->
     repeat_Match R n j p = Some q -> R n q = Throw q' ->
     Star R n p = Throw q') /\
  (forall R n p q',
     R n p = Throw q' ->
     At R n p = Throw q' /\ NotAt R n p = Throw q' /\
     Plus R n p = Throw q' /\ (AtEnd p = false -> Opt R n p = Throw q')) /\
  (forall id R n p q',
     R n (StartNode id p) = Throw q' ->
     Store id R n p = Throw (AbandonNode id q')).
Proof.
  split; [|split; [|split; [|split]]].
  - intros pre R post n p q q' Hlen Hpre HR.
    rewrite Seq_of_in_order, in_order_app, Hpre by assumption.
    simpl. now rewrite HR.
  - intros pre R post n p q q' Hlen Hpre HR.
    rewrite Or_of_first_of, first_of_app, Hpre by assumption.
    simpl. now rewrite HR.
  - intros R n j p q q' Hp Hj Hrep HR. unfold Star. rewrite Hp.
    replace n with (j + S (n - S j)) at 2 by lia.
    rewrite (repeat_Match_while R n j _ p q Hrep). simpl. now rewrite HR.
  - intros R n p q' HR. unfold At, NotAt, Plus, Opt. rewrite HR.
    repeat split. intros Hp. now rewrite Hp.
  - intros id R n p q' HR. unfold Store. now rewrite HR.
Qed.

Context {NS : NodeStack PS}.

(** X11 (balanced nodes).  When the sub-rules leave open exactly the
    nodes that were open at entry, on every return and on every exception,
    so does every rule built from them: [Store] closes the node it starts
    on each of its three exits, and no other rule starts or closes a
    node. *)
Theorem every_rule_balanced
  (id : Z) (N : nat) (R T0 T1 T2 T3 T4 T5 T6 T7 T8 T9 : Rule P) :
  balanced R ->
  Forall balanced [T0; T1; T2; T3; T4; T5; T6; T7; T8; T9] ->
  balanced (Store id R) /\
  balanced (Finao R) /\
  balanced (True_T (P := P)) /\
  balanced (False_T (P := P)) /\
  balanced (EndOfInput_T (P := P)) /\
  balanced (At R) /\
  balanced (NotAt R) /\
  balanced (Or T0 T1 T2 T3 T4 T5 T6 T7 T8 T9) /\
  balanced (Seq T0 T1 T2 T3 T4 T5 T6 T7 T8 T9) /\
  balanced (Star R) /\
  balanced (Plus R) /\
  balanced (Opt R) /\
  balanced (Repeat R N) /\
  balanced (UntilPast R) /\
  balanced (UntilAt R) /\
  balanced (StoreFinao id R) /\
  balanced (FinaoIf T0 R) /\
  balanced (StoreIf id T0 R).
Proof.
  intros HR HT.
  assert (HT0 : balanced T0) by now inversion HT.
  repeat apply conj.
  - now apply balanced_Store.
  - now apply balanced_Finao.
  - apply balanced_True_T.
  - apply balanced_False_T.
  - apply balanced_EndOfInput_T.
  - now apply balanced_At.
  - now apply balanced_NotAt.
  - now apply balanced_Or.
  - now apply balanced_Seq.
  - now apply balanced_Star.
  - now apply balanced_Plus.
  - now apply balanced_Opt.
  - now apply balanced_Repeat.
  - now apply balanced_UntilPast.
  - now apply balanced_UntilAt.
  - now apply balanced_StoreFinao.
  - apply balanced_Seq2; [assumption | now apply balanced_Finao].
  - apply balanced_Seq2; [assumption | now apply balanced_StoreFinao].
Qed.

End Propagation.

(** ** The further properties at concrete inputs *)

Lemma Digit_returns (e : Ending) :
  e <> Returned -> never e TextParser.Digit.
Proof.
  intros He n p. unfold TextParser.Digit.
  destruct (String.get _ _) as [a|]; [destruct (TextParser.is_digit a)|];
    simpl; congruence.
Qed.

Lemma Literal_returns (s : string) (e : Ending) :
  e <> Returned -> never e (TextParser.Literal s).
Proof.
  intros He n p. unfold TextParser.Literal.
  destruct (String.eqb _ _); simpl; congruence.
Qed.

Lemma Literal_monotone (s : string) : monotone (TextParser.Literal s).
Proof. intros n m p _ _. reflexivity. Qed.

Lemma Literal_halts (s : string) : halts (TextParser.Literal s).
Proof.
  intros p. exists 0. unfold TextParser.Literal.
  destruct (String.eqb _ _); discriminate.
Qed.

Lemma Digit_restores_position : restores_position TextParser.Digit.
Proof. apply transparent_restores_position, Digit_transparent. Qed.

Lemma Plus_one_or_more_witness :
  Plus TextParser.Digit 3 (TextParser.start "12a") =
  Seq2 TextParser.Digit (Star TextParser.Digit) 3 (TextParser.start "12a").
Proof.
  apply (Plus_one_or_more (PL := TextParser_laws) TextParser.Digit 3
           (TextParser.start "12a")).
  exact Digit_restores_position.
Defined.

Lemma Plus_greedy_witness :
  exists n0 o, o <> OutOfFuel /\
    forall n, n0 <= n -> Plus TextParser.Digit n (TextParser.start "12a") = o.
Proof.
  apply (Plus_greedy TextParser.remaining TextParser.Digit
           Digit_monotone Digit_halts Digit_consumes
           (TextParser.start "12a")).
Defined.

Lemma Repeat_exactly_witness :
  Repeat TextParser.Digit 2 0 (TextParser.start "12a") =
  Seq_of [TextParser.Digit; TextParser.Digit] 0 (TextParser.start "12a").
Proof.
  destruct (Repeat_exactly (PL := TextParser_laws) TextParser.Digit 2 0
              (TextParser.start "12a"))
    as (_ & HSeq & _).
  apply HSeq. lia.
Defined.

Lemma UntilPast_scans_witness :
  exists j,
    j < 5 /\ skips (TextParser.Literal ";") 5 (TextParser.start "ab;cd") j /\
    TextParser.Literal ";" 5 (advance j (TextParser.start "ab;cd")) =
    Ret true (TextParser.mkCursor "ab;cd" 3 [] []).
Proof.
  apply (UntilPast_scans (PL := TextParser_laws) (TextParser.Literal ";")
           (Literal_transparent ";") 5 (TextParser.start "ab;cd")
           (TextParser.mkCursor "ab;cd" 3 [] [])).
  reflexivity.
Defined.

Lemma UntilPast_halts_witness :
  exists n0 o, o <> OutOfFuel /\
    forall n, n0 <= n ->
      UntilPast (TextParser.Literal ";") n (TextParser.start "abcd") = o.
Proof.
  apply (UntilPast_halts (FI := TextParser_finite) (TextParser.Literal ";")
           (Literal_monotone ";") (Literal_halts ";")
           (Literal_transparent ";") (TextParser.start "abcd")).
Defined.


Lemma UntilAt_stops_at_match_witness :
  exists j,
    j < 5 /\
    TextParser.mkCursor "ab;cd" 2 [] [] = advance j (TextParser.start "ab;cd")
    /\ skips (TextParser.Literal ";") 5 (TextParser.start "ab;cd") j /\
    exists q,
      TextParser.Literal ";" 5 (TextParser.mkCursor "ab;cd" 2 [] []) =
        Ret true q /\
      UntilPast (TextParser.Literal ";") 5 (TextParser.start "ab;cd") =
        Ret true q.
Proof.
  apply (UntilAt_stops_at_match
           (TextParser.Literal ";") (Literal_obeys ";")
           5 (TextParser.start "ab;cd")).
  reflexivity.
Defined.

Lemma StoreFinao_all_or_nothing_witness :
  StoreFinao 7 TextParser.Digit 0 (TextParser.start "x") =
  Throw (TextParser.start "x").
Proof.
  destruct (StoreFinao_all_or_nothing (PL := TextParser_laws) 7
              TextParser.Digit 0 (TextParser.start "x"))
    as (_ & _ & Hthrow).
  apply (Hthrow Digit_transparent (StartNode 7 (TextParser.start "x"))).
  reflexivity.
Defined.

Lemma commit_point_witness :
  StoreIf 7 (TextParser.Literal "#") TextParser.Digit 0
    (TextParser.start "#1") =
  StoreFinao 7 TextParser.Digit 0 (TextParser.mkCursor "#1" 1 [] []).
Proof.
  destruct (commit_point (PL := TextParser_laws) 7 (TextParser.Literal "#")
              TextParser.Digit 0 (TextParser.start "#1"))
    as (_ & _ & Hafter).
  apply (Hafter (TextParser.mkCursor "#1" 1 [] [])). reflexivity.
Defined.

Lemma every_rule_balanced_witness :
  balanced (Store 1 TextParser.Digit) /\
  balanced (StoreIf 1 TextParser.Digit TextParser.Digit).
Proof.
  destruct (every_rule_balanced 1 2 TextParser.Digit
              TextParser.Digit TextParser.Digit TextParser.Digit
              TextParser.Digit TextParser.Digit TextParser.Digit
              TextParser.Digit TextParser.Digit TextParser.Digit
              TextParser.Digit Digit_balanced)
    as (HStore & _ & _ & _ & _ & _ & _ & _ & _ & _ & _ & _ & _ & _ & _ &
        _ & _ & HStoreIf).
  { repeat constructor; apply Digit_balanced. }
  split; assumption.
Defined.

Lemma only_Finao_throws_witness :
  no_throw (Star TextParser.Digit) /\
  no_throw (Store 1 TextParser.Digit).
Proof.
  assert (Ht : Thrown <> Returned) by discriminate.
  destruct (only_Finao_throws 1 2 TextParser.Digit
              TextParser.Digit TextParser.Digit TextParser.Digit
              TextParser.Digit TextParser.Digit TextParser.Digit
              TextParser.Digit TextParser.Digit TextParser.Digit
              TextParser.Digit (Digit_returns Thrown Ht))
    as (_ & _ & _ & HStore & _ & _ & _ & _ & HStar & _).
  { repeat constructor; apply (Digit_returns Thrown Ht). }
  split; assumption.
Defined.

Lemma lookahead_algebra_witness :
  NotAt (NotAt TextParser.Digit) 0 (TextParser.start "1") =
  At TextParser.Digit 0 (TextParser.start "1").
Proof.
  destruct (lookahead_algebra (PL := TextParser_laws) TextParser.Digit 0
              (TextParser.start "1"))
    as (_ & _ & H).
  apply (H Digit_restores_position).
Defined.

Lemma nesting_is_flat_witness :
  Seq2 (Seq_of [TextParser.Digit; TextParser.Digit])
       (Seq_of [TextParser.Literal "a"]) 0 (TextParser.start "12b") =
  Seq_result (GetPos (TextParser.start "12b"))
    (in_order ([TextParser.Digit; TextParser.Digit] ++
               [TextParser.Literal "a"]) 0 (TextParser.start "12b")).
Proof.
  apply (nesting_is_flat (PL := TextParser_laws)
           [TextParser.Digit; TextParser.Digit] [TextParser.Literal "a"]
           0 (TextParser.start "12b")); simpl; lia.
Defined.
